(** * KAST Concierge: the intent classification core of [kast_ai_potente.py]

    A shallow embedding of [load_model] and [get_intent] (lines 26-100 of
    the source) and of the route [chat] that calls them (lines 110-317),
    together with the properties the specification states about them.

    Conventions of the embedding.
    - A Python [str] is the list of its code points ([PyStr.str]).
    - The two module globals [_model] and [_intent_cache] are fields of an
      explicit [state]; every function is a state transformer that may
      also raise, as Python code does ([M]).
    - What the source obtains from libraries ([SentenceTransformer(..)],
      [model.encode], [util.cos_sim(..).item()]) is a [World]: each call
      either yields a value or raises.
    - [str.lower] is the interpreter's (full Unicode case mapping); it is
      a parameter of the development.  [str.strip] and [in] are written
      out. *)

From stdpp Require Import gmap list.
From Stdlib Require Import QArith String Ascii SpecFloat.

Local Open Scope N_scope.

(** ** Python strings *)

Module PyStr.

(** A [str] is a sequence of Unicode code points. *)
Definition str : Type := list N.

(** String literals are written as in the source file, which is UTF-8:
    [lit] decodes the bytes of a literal into code points. *)
Fixpoint utf8_decode (bs : list N) : str :=
  match bs with
  | [] => []
  | b0 :: r0 =>
    if b0 <? 128 then b0 :: utf8_decode r0
    else match r0 with
    | [] => []
    | b1 :: r1 =>
      if b0 <? 224 then ((b0 - 192) * 64 + (b1 - 128)) :: utf8_decode r1
      else match r1 with
      | [] => []
      | b2 :: r2 =>
        if b0 <? 240
        then ((b0 - 224) * 4096 + (b1 - 128) * 64 + (b2 - 128))
               :: utf8_decode r2
        else match r2 with
        | [] => []
        | b3 :: r3 =>
          ((b0 - 240) * 262144 + (b1 - 128) * 4096
             + (b2 - 128) * 64 + (b3 - 128)) :: utf8_decode r3
        end
      end
    end
  end.

Definition lit (s : string) : str :=
  utf8_decode (map N_of_ascii (list_ascii_of_string s)).

(** [ch.isspace()] for a single code point, the table CPython uses for
    [str.strip()] without argument. *)
Definition isspace (c : N) : bool :=
  ((9 <=? c) && (c <=? 13)) || ((28 <=? c) && (c <=? 32))
  || (c =? 133) || (c =? 160) || (c =? 5760)
  || ((8192 <=? c) && (c <=? 8202))
  || (c =? 8232) || (c =? 8233) || (c =? 8239) || (c =? 8287)
  || (c =? 12288).

Fixpoint lstrip (s : str) : str :=
  match s with
  | [] => []
  | c :: s' => if isspace c then lstrip s' else s
  end.

Definition rstrip (s : str) : str := rev (lstrip (rev s)).

(** [s.strip()] *)
Definition strip (s : str) : str := rstrip (lstrip s).

(** [q.startswith(w)] *)
Fixpoint startswith (w q : str) : bool :=
  match w, q with
  | [], _ => true
  | _ :: _, [] => false
  | a :: w', b :: q' => (a =? b) && startswith w' q'
  end.

(** [w in q]: [w] occurs in [q] as a contiguous substring. *)
Fixpoint str_in (w q : str) : bool :=
  startswith w q
  || match q with
     | [] => false
     | _ :: q' => str_in w q'
     end.

(** [any(w in q for w in ws)] *)
Fixpoint any_in (ws : list str) (q : str) : bool :=
  match ws with
  | [] => false
  | w :: ws' => if str_in w q then true else any_in ws' q
  end.

(** The ASCII/Latin-1 part of [str.lower]: A-Z and the Latin-1 capitals
    (U+00C0-U+00DE except the multiplication sign) move up by 32, every
    other code point is kept.  It agrees with Python's [lower] on
    strings whose capitals all lie in that range, and serves as the
    instance of the [lower] parameter in the worked examples. *)
Definition lower_latin1_char (c : N) : N :=
  if ((65 <=? c) && (c <=? 90))
     || ((192 <=? c) && (c <=? 222) && negb (c =? 215))
  then c + 32 else c.

Definition lower_latin1 (s : str) : str := map lower_latin1_char s.

End PyStr.

Import PyStr.

(** ** Globals, the outside world, and effects *)

(** A model object is identified by the construction attempt that made
    it: every call of the constructor that returns makes a new object. *)
Definition model : Type := nat.

(** The lines the two functions write to the log. *)
Inductive log_line : Type :=
  | LoadingModel   (* info:  Carregando modelo de embeddings pela primeira vez... *)
  | ModelLoaded    (* info:  Modelo carregado com sucesso! *)
  | LoadError      (* error: Erro ao carregar modelo: ... *)
  | IntentError.   (* error: Erro no get_intent: ... and the traceback *)

(** The module globals (lines 27-28), the log, and two counters that
    record how often the constructor and [encode] have been called. *)
Record state : Type := mkState {
  _model : option model;
  _intent_cache : gmap str str;
  constructions : nat;
  encodes : nat;
  log : list log_line
}.

(** State at import time: [_model = None], [_intent_cache = {}]. *)
Definition initial : state :=
  {| _model := None; _intent_cache := ∅;
     constructions := 0; encodes := 0; log := [] |}.

(** What the program takes from the interpreter and from
    sentence_transformers.  [None] and [false] stand for a raised
    exception.  The outcome of a constructor or [encode] call may
    change from one call to the next (the index is the number of calls
    made before it); scores are modelled as rationals, so a similarity is
    always an ordinary number. *)
Record World : Type := mkWorld {
  emb : Type;
  lower : str -> str;
  construct : nat -> bool;
  encode : model -> nat -> str -> option emb;
  cos_sim : emb -> emb -> option Q
}.

(** A computation either returns a value or raises; the state it leaves
    behind is kept in both cases. *)
Inductive result (A : Type) : Type :=
  | Value (a : A)
  | Raised.
Arguments Value {A} a.
Arguments Raised {A}.

Definition M (A : Type) : Type := state -> result A * state.

Definition ret {A} (a : A) : M A := fun st => (Value a, st).

Definition bind {A B} (c : M A) (k : A -> M B) : M B :=
  fun st =>
    match c st with
    | (Value a, st') => k a st'
    | (Raised, st') => (Raised, st')
    end.

(** [try: body except Exception: handler] *)
Definition try_except {A} (body handler : M A) : M A :=
  fun st =>
    match body st with
    | (Value a, st') => (Value a, st')
    | (Raised, st') => handler st'
    end.

Notation "x <- c ;; k" := (bind c (fun x => k))
  (at level 100, c at next level, right associativity).
Notation "c ;;; k" := (bind c (fun _ => k))
  (at level 100, right associativity).

Definition read_model : M (option model) := fun st => (Value (_model st), st).

Definition write_model (m : option model) : M unit :=
  fun st => (Value tt,
             {| _model := m; _intent_cache := _intent_cache st;
                constructions := constructions st; encodes := encodes st;
                log := log st |}).

Definition read_cache : M (gmap str str) :=
  fun st => (Value (_intent_cache st), st).

(** [_intent_cache[k] = v] *)
Definition cache_store (k v : str) : M unit :=
  fun st => (Value tt,
             {| _model := _model st;
                _intent_cache := <[k:=v]> (_intent_cache st);
                constructions := constructions st; encodes := encodes st;
                log := log st |}).

Definition logging (l : log_line) : M unit :=
  fun st => (Value tt,
             {| _model := _model st; _intent_cache := _intent_cache st;
                constructions := constructions st; encodes := encodes st;
                log := log st ++ [l] |}).

(** ** The tables and the pure loop

    The sentinel label. *)
Definition unknown : str := lit "unknown".

(** [x > y] on scores. *)
Definition Qgt_bool (x y : Q) : bool :=
  (Qnum y * QDen x <? Qnum x * QDen y)%Z.

(** The [keywords] dict of lines 50-59; a dict literal is iterated in
    the order it is written. *)
Definition keywords : list (str * list str) :=
  [ (lit "depósito", [lit "depositar"; lit "depósito"; lit "tx hash";
                      lit "adicionar fundos"]);
    (lit "saldo",    [lit "saldo"; lit "quanto tenho"; lit "balance"]);
    (lit "cartão",   [lit "cartão"; lit "card"; lit "kard"]);
    (lit "fees",     [lit "fees"; lit "taxas"; lit "custo"; lit "comissão"]);
    (lit "viagens",  [lit "viagem"; lit "travel"; lit "fora país"]);
    (lit "suporte",  [lit "ajuda"; lit "suporte"; lit "human"; lit "ticket"]);
    (lit "yield",    [lit "yield"; lit "juros"; lit "apy"; lit "ganhar"]);
    (lit "cashback", [lit "cashback"; lit "recompensa"; lit "pontos"]) ].

(** The [intents] list of line 77. *)
Definition intents : list str :=
  [ lit "depósito"; lit "saldo"; lit "cartão"; lit "fees"; lit "viagens";
    lit "suporte"; lit "yield"; lit "cashback" ].

(** Lines 60-63: the loop over [keywords.items()] with its early
    [return intent], and the [return 'unknown'] after it. *)
Fixpoint keyword_loop (items : list (str * list str)) (query : str) : str :=
  match items with
  | [] => unknown
  | (intent, words) :: rest =>
      if any_in words query then intent else keyword_loop rest query
  end.

(** ** The two functions *)

Section Program.

Variable W : World.

(** [SentenceTransformer('paraphrase-multilingual-MiniLM-L12-v2')],
    with the import that precedes it. *)
Definition SentenceTransformer : M model :=
  fun st =>
    let k := constructions st in
    (if construct W k then Value k else Raised,
     {| _model := _model st; _intent_cache := _intent_cache st;
        constructions := S k; encodes := encodes st; log := log st |}).

(** [model.encode(text, convert_to_tensor=True)] *)
Definition model_encode (m : model) (text : str) : M (emb W) :=
  fun st =>
    let k := encodes st in
    (match encode W m k text with Some e => Value e | None => Raised end,
     {| _model := _model st; _intent_cache := _intent_cache st;
        constructions := constructions st; encodes := S k;
        log := log st |}).

(** [util.cos_sim(a, b).item()] *)
Definition cos_sim_item (a b : emb W) : M Q :=
  fun st =>
    (match cos_sim W a b with Some s => Value s | None => Raised end, st).

(** Lines 30-42. *)
Definition load_model : M (option model) :=
  m <- read_model ;;
  match m with
  | None =>
      logging LoadingModel ;;;
      try_except
        (m' <- SentenceTransformer ;;
         write_model (Some m') ;;;
         logging ModelLoaded)
        (logging LoadError ;;;
         write_model None)
  | Some _ => ret tt
  end ;;;
  read_model.

(** Lines 83-88: the loop over [intents]; [best] is the pair
    [(best_score, best_intent)]. *)
Fixpoint score_loop (m : model) (query_emb : emb W) (its : list str)
         (best : Q * str) : M (Q * str) :=
  match its with
  | [] => ret best
  | intent :: rest =>
      intent_emb <- model_encode m intent ;;
      score <- cos_sim_item query_emb intent_emb ;;
      score_loop m query_emb rest
        (if Qgt_bool score (fst best) then (score, intent) else best)
  end.

(** Lines 70-95: the body of the [try] block.  The two imports that
    open it name modules that constructing the model has loaded. *)
Definition semantic_body (query : str) : M str :=
  m <- load_model ;;
  match m with
  | None => ret unknown
  | Some m =>
      query_emb <- model_encode m query ;;
      best <- score_loop m query_emb intents ((-1)%Q, unknown) ;;
      if Qgt_bool (fst best) 0.62%Q
      then cache_store query (snd best) ;;; ret (snd best)
      else cache_store query unknown ;;; ret unknown
  end.

(** Lines 44-100. *)
Definition get_intent (query : str) : M str :=
  let query := strip (lower W query) in
  m <- load_model ;;
  match m with
  | None => ret (keyword_loop keywords query)
  | Some _ =>
      cache <- read_cache ;;
      match cache !! query with
      | Some cached => ret cached
      | None =>
          try_except
            (semantic_body query)
            (logging IntentError ;;; ret unknown)
      end
  end.

(** A run of calls, one after the other, from a given state. *)
Fixpoint run (queries : list str) (st : state) : state :=
  match queries with
  | [] => st
  | q :: rest => run rest (snd (get_intent q st))
  end.

End Program.


(** The state after a line is written to the log. *)
Definition logged (l : log_line) (st : state) : state :=
  {| _model := _model st; _intent_cache := _intent_cache st;
     constructions := constructions st; encodes := encodes st;
     log := log st ++ [l] |}.

(** ** Synthetic worlds

    Instances of [World] for the worked examples: [str.lower] is
    [lower_latin1]; an embedding is the text itself, so that a score
    table indexed by (query, label) plays the role of the provider. *)

Module Worlds.

(** The constructor raises at every attempt. *)
Definition offline : World :=
  {| emb := str; lower := lower_latin1;
     construct := fun _ => false;
     encode := fun _ _ _ => None;
     cos_sim := fun _ _ => None |}.

(** The constructor returns from attempt [from] on; every embedding
    call on a text other than those in [faulty] returns the text
    itself, and [table] gives the similarity of a query and a label. *)
Definition scripted (from : nat) (faulty : list str)
           (table : str -> str -> option Q) : World :=
  {| emb := str; lower := lower_latin1;
     construct := fun k => bool_decide (from ≤ k)%nat;
     encode := fun _ _ text =>
                 if bool_decide (text ∈ faulty) then None else Some text;
     cos_sim := table |}.

(** A table that gives [hit] to one (query, label) pair and [other] to
    every other pair. *)
Definition one_hit (query label : str) (hit other : Q) (a b : str) : option Q :=
  if bool_decide (a = query ∧ b = label) then Some hit else Some other.

(** The embedding call raises exactly at the calls numbered in
    [bad_calls], whatever the text. *)
Definition transient (bad_calls : list nat)
           (table : str -> str -> option Q) : World :=
  {| emb := str; lower := lower_latin1;
     construct := fun _ => true;
     encode := fun _ k text =>
                 if bool_decide (k ∈ bad_calls) then None else Some text;
     cos_sim := table |}.

(** The query ["oi"] scores exactly 0.62 against [saldo], 0.1 against
    the other labels. *)
Definition boundary : World :=
  scripted 0 [] (one_hit (lit "oi") (lit "saldo") 0.62 0.1).

(** The same with 0.6201. *)
Definition just_above : World :=
  scripted 0 [] (one_hit (lit "oi") (lit "saldo") 0.6201 0.1).

(** Every query scores 0.9 against both [saldo] and [fees], 0.1 against
    the other labels. *)
Definition tie : World :=
  scripted 0 []
    (fun _ b => if bool_decide (b = lit "saldo" ∨ b = lit "fees")
                then Some 0.9%Q else Some 0.1%Q).

(** The empty string scores 0.9 against [fees]. *)
Definition empty_hit : World :=
  scripted 0 [] (one_hit [] (lit "fees") 0.9 0.1).

(** The constructor raises at the first attempt and returns at the
    second. *)
Definition late : World := scripted 1 [] (fun _ _ => Some 0.1%Q).

(** The embedding call raises on the text ["boom"]. *)
Definition faulty : World :=
  scripted 0 [lit "boom"] (one_hit (lit "oi") (lit "saldo") 0.9 0.1).

(** The fourth embedding call since start-up raises, the others
    return. *)
Definition hiccup : World :=
  transient [3%nat] (one_hit (lit "oi") (lit "saldo") 0.9 0.1).

(** The constructor always returns. *)
Definition online : World := scripted 0 [] (fun _ _ => Some 0.1%Q).


End Worlds.

(** ** Calls of [load_model] that overlap

    [load_model] takes no lock, so a second caller can run between any
    two statements of a first one.  A caller is at one of the points
    below; one step runs it to the next point.  The test of line 33, the
    constructor call, the assignment to [_model] and the [return] are
    separate steps, as they are separate statements (the constructor
    call reads files and can take long). *)

Module Threads.

Inductive pc : Type :=
  | AtTest                       (* line 33, before [if _model is None] *)
  | AtConstruct                  (* lines 34-37, before the constructor call *)
  | AtAssign (r : option model)  (* the constructor returned [Some m]
                                    (line 37) or raised (lines 39-41);
                                    before the assignment to [_model] *)
  | AtReturn                     (* line 42, before [return _model] *)
  | Returned (r : option model). (* the call has returned [r] *)

Definition step_thread (W : World) (p : pc) (st : state) : pc * state :=
  match p with
  | AtTest =>
      match _model st with
      | None => (AtConstruct, logged LoadingModel st)
      | Some _ => (AtReturn, st)
      end
  | AtConstruct =>
      match SentenceTransformer W st with
      | (Value m, st') => (AtAssign (Some m), st')
      | (Raised, st') => (AtAssign None, st')
      end
  | AtAssign (Some m) =>
      (AtReturn, logged ModelLoaded (write_model (Some m) st).2)
  | AtAssign None =>
      (AtReturn, (write_model None (logged LoadError st)).2)
  | AtReturn => (Returned (_model st), st)
  | Returned r => (Returned r, st)
  end.

(** Caller [i] takes one step. *)
Definition step (W : World) (i : nat) (c : list pc * state)
  : list pc * state :=
  match c.1 !! i with
  | Some p =>
      let (p', st') := step_thread W p c.2 in (<[i:=p']> c.1, st')
  | None => c
  end.

(** The callers step in the order the schedule lists them. *)
Fixpoint exec (W : World) (schedule : list nat) (c : list pc * state)
  : list pc * state :=
  match schedule with
  | [] => c
  | i :: rest => exec W rest (step W i c)
  end.

(** [n] callers, each running its whole call before the next starts. *)
Definition one_after_another (first n : nat) : list nat :=
  flat_map (fun i => [i; i; i; i]) (seq first n).

End Threads.

(** ** Vocabulary of the statements *)

(** [w] occurs somewhere inside [q]. *)
Definition occurs_in (w q : str) : Prop := ∃ a b, q = a ++ w ++ b.

(** Some trigger of the rule occurs in the query. *)
Definition rule_matches (words : list str) (q : str) : Prop :=
  ∃ w, w ∈ words ∧ occurs_in w q.

(** Position [i] holds the first of the largest scores of the list:
    no score is larger, and every score before it is smaller. *)
Definition first_max (scores : list Q) (i : nat) (sc : Q) : Prop :=
  scores !! i = Some sc ∧
  (∀ j sj, scores !! j = Some sj → (sj <= sc)%Q) ∧
  (∀ j sj, (j < i)%nat → scores !! j = Some sj → (sj < sc)%Q).

(** The pair the scoring loop ends with when it meets the given
    (score, label) pairs in turn: the loop without its effects. *)
Fixpoint pick (scored : list (Q * str)) (best : Q * str) : Q * str :=
  match scored with
  | [] => best
  | (score, intent) :: rest =>
      pick rest (if Qgt_bool score (fst best) then (score, intent) else best)
  end.

(** In state [st] the provider answers every call a semantic-path
    resolution of [query] makes: the query is embedded as [qe], and the
    label at position [i] is embedded and scored as the [i]-th element
    of [scores]. *)
Definition provider_answers (W : World) (st : state) (m : model)
           (query : str) (qe : emb W) (scores : list Q) : Prop :=
  encode W m (encodes st) query = Some qe ∧
  List.length scores = List.length intents ∧
  ∀ i intent sc,
    intents !! i = Some intent → scores !! i = Some sc →
    ∃ e, encode W m (S (encodes st) + i) intent = Some e ∧
         cos_sim W qe e = Some sc.

(** The state after [n] more calls of [encode]. *)
Definition more_encodes (n : nat) (st : state) : state :=
  {| _model := _model st; _intent_cache := _intent_cache st;
     constructions := constructions st; encodes := n + encodes st;
     log := log st |}.

(** The threshold decision on the pair the loop ends with. *)
Definition decision (best : Q * str) : str :=
  if Qgt_bool best.1 0.62%Q then best.2 else unknown.

(** The state after [_intent_cache[k] = v]. *)
Definition stored (k v : str) (st : state) : state :=
  {| _model := _model st; _intent_cache := <[k:=v]> (_intent_cache st);
     constructions := constructions st; encodes := encodes st;
     log := log st |}.

(** [query.lower().strip()], the first line of [get_intent]. *)
Definition normalized (W : World) (query : str) : str :=
  strip (lower W query).

(** A call made in state [st] finds no model: [load_model] returns
    [None], so [get_intent] takes the keyword path. *)
Definition keyword_path (W : World) (st : state) : Prop :=
  (load_model W st).1 = Value None.

(** A call made in state [st] gets model [m] from [load_model], so
    [get_intent] takes the semantic path. *)
Definition semantic_path (W : World) (st : state) (m : model) : Prop :=
  (load_model W st).1 = Value (Some m).

(** The labels a resolution may return. *)
Definition IntentLabel : list str := intents ++ [unknown].

(** Every decision in the cache is one of the labels. *)
Definition cache_ok (st : state) : Prop :=
  ∀ k v, _intent_cache st !! k = Some v → v ∈ IntentLabel.

(** In state [st] some provider call of a semantic-path resolution of
    [query] raises: the embedding of the query, or, the query being
    embedded as [qe] and the labels before position [i] embedded and
    scored, the embedding of the label at [i] or its scoring. *)
Definition provider_fails (W : World) (st : state) (m : model)
           (query : str) : Prop :=
  encode W m (encodes st) query = None ∨
  ∃ qe i intent,
    encode W m (encodes st) query = Some qe ∧
    intents !! i = Some intent ∧
    (∀ j it, (j < i)%nat → intents !! j = Some it →
             ∃ e sc, encode W m (S (encodes st) + j) it = Some e ∧
                     cos_sim W qe e = Some sc) ∧
    (encode W m (S (encodes st) + i) intent = None ∨
     ∃ e, encode W m (S (encodes st) + i) intent = Some e ∧
          cos_sim W qe e = None).

(** The loader has stopped at the first attempt that returned: the
    model in [_model], if any, is the one that attempt made, every
    earlier attempt raised, and none has been made since. *)
Definition loader_ok (W : World) (st : state) : Prop :=
  match _model st with
  | Some m =>
      construct W m = true ∧
      (∀ k, (k < m)%nat → construct W k = false) ∧
      constructions st = S m
  | None => ∀ k, (k < constructions st)%nat → construct W k = false
  end.

(** How many of the callers have not yet run the constructor and may
    still do so: those before the test of line 33 and those between the
    test and the constructor call. *)
Definition may_construct (p : Threads.pc) : nat :=
  match p with
  | Threads.AtTest | Threads.AtConstruct => 1
  | _ => 0
  end.

Definition pending (callers : list Threads.pc) : nat :=
  sum_list (may_construct <$> callers).

(** A caller holds a model, or will get one: what it is about to
    assign, the [_model] it is about to return, or what it has
    returned, is a model. *)
Definition holds_model (st : state) (p : Threads.pc) : Prop :=
  match p with
  | Threads.AtTest | Threads.AtConstruct => True
  | Threads.AtAssign r => is_Some r
  | Threads.AtReturn => is_Some (_model st)
  | Threads.Returned r => is_Some r
  end.

(** ** The request layer: [chat] (lines 110-317)

    The route first passes the limiter of line 111: a request over
    ["10 per minute"] is answered 429 and the function is not run.  The
    function reads the JSON body of the request, rejects a blank query,
    asks langdetect for the language, resolves the intent and answers
    from the table of that language.  How Flask-Limiter counts requests
    and how Flask serializes the reply belong to those libraries: the
    limiter's decision for a request is an input of [chat]. *)

Module Json.

(** What [request.get_json(silent=True)] can return besides [None]: the
    Python value of a JSON document.  An object lists its members in
    document order. *)
#[warnings="-register-all"]
Inductive value : Type :=
  | JNull
  | JBool (b : bool)
  | JInt (n : Z)
  | JFloat (f : spec_float)
  | JStr (s : str)
  | JArr (items : list value)
  | JObj (members : list (str * value)).

(** Python truth of a value, as [or] tests it. *)
Definition truthy (v : value) : bool :=
  match v with
  | JNull => false
  | JBool b => b
  | JInt n => negb (n =? 0)%Z
  | JFloat (S754_zero _) => false
  | JFloat _ => true
  | JStr s => negb (bool_decide (s = []))
  | JArr items => negb (bool_decide (items = []))
  | JObj members => negb (bool_decide (members = []))
  end.

End Json.

(** [d.get(k)] on a dict written as the list of its items: when a key
    is written twice the later item is the one the dict holds. *)
Fixpoint dict_get {V : Type} (d : list (str * V)) (k : str) : option V :=
  match d with
  | [] => None
  | (k', v) :: rest =>
      match dict_get rest k with
      | Some v' => Some v'
      | None => if bool_decide (k' = k) then Some v else None
      end
  end.

(** What [detect(query)] of langdetect does. *)
Inductive detect_outcome : Type :=
  | Detected (lang : str)
  | NoLanguage     (* raises LangDetectException *)
  | DetectCrash.   (* raises anything else *)

(** What [chat] takes from outside during one request: langdetect, and
    the clock read as [datetime.now().strftime('%d/%m/%Y %H:%M')]. *)
Record Web : Type := mkWeb {
  detect : str -> detect_outcome;
  now : str
}.

(** What [chat] returns: the status code and the text under
    ["response"]; and beside it what line 315 writes to the log (the
    query, the language and the intent). *)
Record reply : Type := mkReply {
  status : nat;
  response : str;
  info : option (str * str * str)
}.

(** Lines 126-127; [balance_2f] is [f"{balance:.2f}"] for
    [balance = 1250.75]. *)
Definition name : str := lit "Tomás".
Definition balance_2f : str := lit "1250.75".

(** Lines 130-299. *)
Definition responses : list (str * list (str * str)) :=
  [ (lit "pt",
     [ (lit "greeting",
        lit "Olá " ++ name ++ lit "! 👋 Saldo atual: " ++ balance_2f ++ lit " USDC. ");
       (lit "depósito",
        lit "Para depositar: App → Wallet → Deposit (USDC, SOL, etc.). Se tens tx hash, envia aqui!");
       (lit "saldo",
        lit "O teu saldo é " ++ balance_2f ++ lit " USDC. Queres ver movimentos?");
       (lit "cartão",
        lit "Cartão KAST ativo em 160+ países, sem taxas forex.");
       (lit "fees",
        lit "Fees: 0% swaps internos, ~1% saques fiat, zero em viagens.");
       (lit "viagens",
        lit "Perfeito para viagens: cartão global + Apple Pay.");
       (lit "suporte",
        lit "Suporte humano: ticket no app ou support@kast.xyz");
       (lit "yield",
        lit "Yield: até 4.5% APY em USDC (em breve).");
       (lit "cashback",
        lit "Cashback: até 5-8% + pontos atuais 420.");
       (lit "unknown",
        lit "Não percebi... Tenta reformular (ex: 'saldo', 'depositar', 'cartão').") ]);
    (lit "en",
     [ (lit "greeting",
        lit "Hi " ++ name ++ lit "! 👋 Current balance: " ++ balance_2f ++ lit " USDC. ");
       (lit "depósito",
        lit "To deposit: App → Wallet → Deposit (USDC, SOL, etc.). Send tx hash if you have one!");
       (lit "saldo",
        lit "Your balance is " ++ balance_2f ++ lit " USDC. Want to see transactions?");
       (lit "cartão",
        lit "KAST Card active in 160+ countries, no forex fees.");
       (lit "fees",
        lit "Fees: 0% on internal swaps, ~1% on fiat withdrawals, zero on travel.");
       (lit "viagens",
        lit "Perfect for travel: global card + Apple Pay.");
       (lit "suporte",
        lit "Human support: open ticket in app or email support@kast.xyz");
       (lit "yield",
        lit "Yield: up to 4.5% APY on USDC (coming soon).");
       (lit "cashback",
        lit "Cashback: up to 5-8% + current points 420.");
       (lit "unknown",
        lit "Didn't understand... Try rephrasing (e.g. 'balance', 'deposit', 'card').") ]);
    (lit "es",
     [ (lit "greeting",
        lit "¡Hola " ++ name ++ lit "! 👋 Saldo actual: " ++ balance_2f ++ lit " USDC. ");
       (lit "depósito",
        lit "Para depositar: App → Wallet → Deposit (USDC, SOL, etc.). ¡Envía tx hash si la tienes!");
       (lit "saldo",
        lit "Tu saldo es " ++ balance_2f ++ lit " USDC. ¿Quieres ver movimientos?");
       (lit "cartão",
        lit "Tarjeta KAST activa en +160 países, sin tasas forex.");
       (lit "fees",
        lit "Comisiones: 0% en swaps internos, ~1% en retiros fiat, cero en viajes.");
       (lit "viagens",
        lit "Perfecto para viajes: tarjeta global + Apple Pay.");
       (lit "suporte",
        lit "Soporte humano: abre ticket en app o email support@kast.xyz");
       (lit "yield",
        lit "Yield: hasta 4.5% APY en USDC (próximamente).");
       (lit "cashback",
        lit "Cashback: hasta 5-8% + puntos actuales 420.");
       (lit "unknown",
        lit "No entendí... Intenta reformular (ej: 'saldo', 'depositar', 'tarjeta').") ]);
    (lit "de",
     [ (lit "greeting",
        lit "Hallo " ++ name ++ lit "! 👋 Aktueller Saldo: " ++ balance_2f ++ lit " USDC. ");
       (lit "depósito",
        lit "Zum Einzahlen: App → Wallet → Deposit (USDC, SOL usw.). Sende tx hash, wenn du einen hast!");
       (lit "saldo",
        lit "Dein Saldo beträgt " ++ balance_2f ++ lit " USDC. Möchtest du Transaktionen sehen?");
       (lit "cartão",
        lit "KAST-Karte aktiv in über 160 Ländern, keine Forex-Gebühren.");
       (lit "fees",
        lit "Gebühren: 0% bei internen Swaps, ~1% bei Fiat-Abhebungen, null bei Reisen.");
       (lit "viagens",
        lit "Perfekt für Reisen: globale Karte + Apple Pay.");
       (lit "suporte",
        lit "Menschlicher Support: Ticket in der App öffnen oder E-Mail an support@kast.xyz");
       (lit "yield",
        lit "Yield: bis zu 4,5% APY auf USDC (kommt bald).");
       (lit "cashback",
        lit "Cashback: bis zu 5-8% + aktuelle Punkte 420.");
       (lit "unknown",
        lit "Nicht ganz verstanden... Versuche es umzuformulieren (z.B. 'Saldo', 'Einzahlen', 'Karte').") ]);
    (lit "fr",
     [ (lit "greeting",
        lit "Bonjour " ++ name ++ lit " ! 👋 Solde actuel : " ++ balance_2f ++ lit " USDC. ");
       (lit "depósito",
        lit "Pour déposer : App → Wallet → Deposit (USDC, SOL, etc.). Envoyez le tx hash si vous l'avez !");
       (lit "saldo",
        lit "Votre solde est de " ++ balance_2f ++ lit " USDC. Voulez-vous voir les transactions ?");
       (lit "cartão",
        lit "Carte KAST active dans plus de 160 pays, sans frais forex.");
       (lit "fees",
        lit "Frais : 0 % sur les swaps internes, ~1 % sur les retraits fiat, zéro en voyage.");
       (lit "viagens",
        lit "Parfait pour les voyages : carte globale + Apple Pay.");
       (lit "suporte",
        lit "Support humain : ouvrez un ticket dans l'app ou envoyez un email à support@kast.xyz");
       (lit "yield",
        lit "Yield : jusqu'à 4,5 % APY sur USDC (bientôt disponible).");
       (lit "cashback",
        lit "Cashback : jusqu'à 5-8 % + points actuels 420.");
       (lit "unknown",
        lit "Je n'ai pas bien compris... Essayez de reformuler (ex. : 'solde', 'déposer', 'carte').") ]);
    (lit "it",
     [ (lit "greeting",
        lit "Ciao " ++ name ++ lit "! 👋 Saldo attuale: " ++ balance_2f ++ lit " USDC. ");
       (lit "depósito",
        lit "Per depositare: App → Wallet → Deposit (USDC, SOL, ecc.). Invia tx hash se ce l'hai!");
       (lit "saldo",
        lit "Il tuo saldo è " ++ balance_2f ++ lit " USDC. Vuoi vedere le transazioni?");
       (lit "cartão",
        lit "Carta KAST attiva in oltre 160 paesi, senza commissioni forex.");
       (lit "fees",
        lit "Commissioni: 0% su swap interni, ~1% su prelievi fiat, zero in viaggio.");
       (lit "viagens",
        lit "Perfetto per i viaggi: carta globale + Apple Pay.");
       (lit "suporte",
        lit "Supporto umano: apri un ticket nell'app o invia email a support@kast.xyz");
       (lit "yield",
        lit "Yield: fino al 4,5% APY su USDC (in arrivo).");
       (lit "cashback",
        lit "Cashback: fino al 5-8% + punti attuali 420.");
       (lit "unknown",
        lit "Non ho capito bene... Prova a riformulare (es: 'saldo', 'depositare', 'carta').") ]);
    (lit "nl",
     [ (lit "greeting",
        lit "Hallo " ++ name ++ lit "! 👋 Huidig saldo: " ++ balance_2f ++ lit " USDC. ");
       (lit "depósito",
        lit "Om te storten: App → Wallet → Deposit (USDC, SOL, enz.). Stuur tx hash als je die hebt!");
       (lit "saldo",
        lit "Je saldo is " ++ balance_2f ++ lit " USDC. Wil je transacties zien?");
       (lit "cartão",
        lit "KAST-kaart actief in meer dan 160 landen, geen valutakosten.");
       (lit "fees",
        lit "Kosten: 0% bij interne swaps, ~1% bij fiat-opnames, nul bij reizen.");
       (lit "viagens",
        lit "Perfect voor reizen: globale kaart + Apple Pay.");
       (lit "suporte",
        lit "Menselijke ondersteuning: open een ticket in de app of e-mail support@kast.xyz");
       (lit "yield",
        lit "Yield: tot 4,5% APY op USDC (komt eraan).");
       (lit "cashback",
        lit "Cashback: tot 5-8% + huidige punten 420.");
       (lit "unknown",
        lit "Niet helemaal begrepen... Probeer het anders te formuleren (bijv. 'saldo', 'storten', 'kaart').") ]);
    (lit "ru",
     [ (lit "greeting",
        lit "Привет " ++ name ++ lit "! 👋 Текущий баланс: " ++ balance_2f ++ lit " USDC. ");
       (lit "depósito",
        lit "Чтобы пополнить: App → Wallet → Deposit (USDC, SOL и т.д.). Отправь tx hash, если есть!");
       (lit "saldo",
        lit "Твой баланс: " ++ balance_2f ++ lit " USDC. Хочешь посмотреть транзакции?");
       (lit "cartão",
        lit "Карта KAST активна в более 160 странах, без комиссий по обмену валют.");
       (lit "fees",
        lit "Комиссии: 0% на внутренние свопы, ~1% на вывод в фиат, ноль в поездках.");
       (lit "viagens",
        lit "Идеально для путешествий: глобальная карта + Apple Pay.");
       (lit "suporte",
        lit "Человеческая поддержка: открой тикет в приложении или напиши support@kast.xyz");
       (lit "yield",
        lit "Yield: до 4,5% APY на USDC (скоро).");
       (lit "cashback",
        lit "Кэшбэк: до 5-8% + текущие баллы 420.");
       (lit "unknown",
        lit "Не совсем понял... Попробуй перефразировать (например, 'баланс', 'пополнить', 'карта').") ]);
    (lit "zh-cn",
     [ (lit "greeting",
        lit "你好 " ++ name ++ lit "! 👋 当前余额：" ++ balance_2f ++ lit " USDC。 ");
       (lit "depósito",
        lit "存款方式：App → Wallet → Deposit（USDC、SOL 等）。如果你有 tx hash，请发送！");
       (lit "saldo",
        lit "你的余额是 " ++ balance_2f ++ lit " USDC。想查看交易记录吗？");
       (lit "cartão",
        lit "KAST 卡在 160+ 个国家/地区有效，无外汇费用。");
       (lit "fees",
        lit "费用：内部兑换 0%，法币提现约 1%，旅行零费用。");
       (lit "viagens",
        lit "非常适合旅行：全球卡 + Apple Pay。");
       (lit "suporte",
        lit "人工支持：在应用中开票或邮件至 support@kast.xyz");
       (lit "yield",
        lit "Yield：USDC 年化收益率高达 4.5%（即将推出）。");
       (lit "cashback",
        lit "返现：高达 5-8% + 当前积分 420。");
       (lit "unknown",
        lit "不太明白…请尝试重新表述（例如 '余额'、'存款'、'卡'）。") ]);
    (lit "ja",
     [ (lit "greeting",
        lit "こんにちは " ++ name ++ lit "！👋 現在の残高：" ++ balance_2f ++ lit " USDC。 ");
       (lit "depósito",
        lit "入金方法：App → Wallet → Deposit（USDC、SOL など）。tx hash がある場合は送ってください！");
       (lit "saldo",
        lit "あなたの残高は " ++ balance_2f ++ lit " USDC です。取引履歴を見ますか？");
       (lit "cartão",
        lit "KASTカードは160カ国以上で利用可能、為替手数料なし。");
       (lit "fees",
        lit "手数料：内部スワップ 0%、法定通貨出金約1%、旅行中はゼロ。");
       (lit "viagens",
        lit "旅行に最適：グローバルカード + Apple Pay。");
       (lit "suporte",
        lit "人間サポート：アプリでチケットを開くか、support@kast.xyz にメール");
       (lit "yield",
        lit "Yield：USDCで最大4.5% APY（近日公開）。");
       (lit "cashback",
        lit "キャッシュバック：最大5-8% + 現在のポイント 420。");
       (lit "unknown",
        lit "よくわかりませんでした…言い換えてみてください（例：'残高'、'入金'、'カード'）。") ]);
    (lit "ko",
     [ (lit "greeting",
        lit "안녕하세요 " ++ name ++ lit "! 👋 현재 잔액: " ++ balance_2f ++ lit " USDC. ");
       (lit "depósito",
        lit "입금 방법: App → Wallet → Deposit (USDC, SOL 등). tx hash가 있으면 보내주세요!");
       (lit "saldo",
        lit "잔액은 " ++ balance_2f ++ lit " USDC입니다. 거래 내역을 보시겠습니까?");
       (lit "cartão",
        lit "KAST 카드는 160개 이상 국가에서 사용 가능, 환전 수수료 없음.");
       (lit "fees",
        lit "수수료: 내부 스왑 0%, 법정화폐 출금 약 1%, 여행 중 0.");
       (lit "viagens",
        lit "여행에 최적: 글로벌 카드 + Apple Pay.");
       (lit "suporte",
        lit "인간 지원: 앱에서 티켓 열기 또는 support@kast.xyz 로 이메일");
       (lit "yield",
        lit "Yield: USDC 최대 4.5% APY (곧 출시).");
       (lit "cashback",
        lit "캐시백: 최대 5-8% + 현재 포인트 420.");
       (lit "unknown",
        lit "잘 이해하지 못했습니다… 다시 표현해 주세요 (예: '잔액', '입금', '카드').") ]);
    (lit "ar",
     [ (lit "greeting",
        lit "مرحبا " ++ name ++ lit "! 👋 الرصيد الحالي: " ++ balance_2f ++ lit " USDC. ");
       (lit "depósito",
        lit "للإيداع: App → Wallet → Deposit (USDC، SOL، إلخ). أرسل tx hash إذا كان لديك!");
       (lit "saldo",
        lit "رصيدك هو " ++ balance_2f ++ lit " USDC. هل تريد رؤية المعاملات؟");
       (lit "cartão",
        lit "بطاقة KAST نشطة في أكثر من 160 دولة، بدون رسوم تحويل عملة.");
       (lit "fees",
        lit "الرسوم: 0% على المبادلات الداخلية، ~1% على سحب العملات الورقية، صفر في السفر.");
       (lit "viagens",
        lit "مثالية للسفر: بطاقة عالمية + Apple Pay.");
       (lit "suporte",
        lit "الدعم البشري: افتح تذكرة في التطبيق أو أرسل بريدًا إلى support@kast.xyz");
       (lit "yield",
        lit "Yield: حتى 4.5% APY على USDC (قريبًا).");
       (lit "cashback",
        lit "كاش باك: حتى 5-8% + نقاط حالية 420.");
       (lit "unknown",
        lit "لم أفهم جيدًا... حاول إعادة الصياغة (مثال: 'الرصيد'، 'إيداع'، 'بطاقة').") ]);
    (lit "sv",
     [ (lit "greeting",
        lit "Hej " ++ name ++ lit "! 👋 Aktuell balans: " ++ balance_2f ++ lit " USDC. ");
       (lit "depósito",
        lit "För att sätta in: App → Wallet → Deposit (USDC, SOL osv.). Skicka tx hash om du har en!");
       (lit "saldo",
        lit "Din balans är " ++ balance_2f ++ lit " USDC. Vill du se transaktioner?");
       (lit "cartão",
        lit "KAST-kort aktivt i över 160 länder, inga valutaväxlingsavgifter.");
       (lit "fees",
        lit "Avgifter: 0% på interna swaps, ~1% på fiat-uttag, noll på resor.");
       (lit "viagens",
        lit "Perfekt för resor: globalt kort + Apple Pay.");
       (lit "suporte",
        lit "Mänsklig support: öppna ett ärende i appen eller e-posta support@kast.xyz");
       (lit "yield",
        lit "Yield: upp till 4,5% APY på USDC (kommer snart).");
       (lit "cashback",
        lit "Cashback: upp till 5-8% + nuvarande poäng 420.");
       (lit "unknown",
        lit "Förstod inte riktigt... Försök omformulera (t.ex. 'saldo', 'sätta in', 'kort').") ]);
    (lit "pl",
     [ (lit "greeting",
        lit "Cześć " ++ name ++ lit "! 👋 Aktualne saldo: " ++ balance_2f ++ lit " USDC. ");
       (lit "depósito",
        lit "Aby wpłacić: App → Wallet → Deposit (USDC, SOL itp.). Wyślij tx hash, jeśli masz!");
       (lit "saldo",
        lit "Twoje saldo to " ++ balance_2f ++ lit " USDC. Chcesz zobaczyć transakcje?");
       (lit "cartão",
        lit "Karta KAST aktywna w ponad 160 krajach, bez opłat za przewalutowanie.");
       (lit "fees",
        lit "Opłaty: 0% na wewnętrzne swapy, ~1% na wypłaty fiat, zero w podróżach.");
       (lit "viagens",
        lit "Idealna na podróże: karta globalna + Apple Pay.");
       (lit "suporte",
        lit "Wsparcie ludzkie: otwórz zgłoszenie w aplikacji lub napisz na support@kast.xyz");
       (lit "yield",
        lit "Yield: do 4,5% APY na USDC (wkrótce).");
       (lit "cashback",
        lit "Cashback: do 5-8% + aktualne punkty 420.");
       (lit "unknown",
        lit "Nie do końca zrozumiałem... Spróbuj inaczej sformułować (np. 'saldo', 'wpłacić', 'karta').") ]) ].

(** Lines 113-114: [data = request.get_json(silent=True) or {}] and
    [query = data.get('query', '').strip()].  Only a dict has [get] and
    only a string has [strip]; anything else raises AttributeError. *)
Definition request_query (payload : option Json.value) : result str :=
  let data :=
    match payload with
    | Some v => if Json.truthy v then v else Json.JObj []
    | None => Json.JObj []
    end in
  match data with
  | Json.JObj members =>
      match dict_get members (lit "query") with
      | None => Value (strip [])
      | Some (Json.JStr s) => Value (strip s)
      | Some _ => Raised
      end
  | _ => Raised
  end.

(** Lines 120-123. *)
Definition language (B : Web) (query : str) : result str :=
  match detect B query with
  | Detected lang => Value lang
  | NoLanguage => Value (lit "pt")
  | DetectCrash => Raised
  end.

(** [d[k]], which raises KeyError when the key is missing. *)
Definition dict_item {V : Type} (d : list (str * V)) (k : str) : M V :=
  fun st =>
    (match dict_get d k with Some v => Value v | None => Raised end, st).

(** An effect-free step that may raise. *)
Definition lift {A : Type} (r : result A) : M A := fun st => (r, st).

(** Lines 112-317: the function [chat] itself, under its decorators. *)
Definition chat_body (W : World) (B : Web) (payload : option Json.value)
  : M reply :=
  query <- lift (request_query payload) ;;
  match query with
  | [] =>
      ret {| status := 400;
             response := lit "Escreve uma pergunta válida!";
             info := None |}
  | _ :: _ =>
      lang <- lift (language B query) ;;
      pt <- dict_item responses (lit "pt") ;;
      let res := default pt (dict_get responses lang) in
      intent <- get_intent W query ;;
      greeting <- dict_item res (lit "greeting") ;;
      answer <- match dict_get res intent with
                | Some text => ret text
                | None => dict_item res (lit "unknown")
                end ;;
      let resposta :=
        greeting ++ answer ++ [10; 10] ++ lit "(" ++ now B ++ lit ")" in
      ret {| status := 200;
             response := resposta;
             info := Some (query, lang, intent) |}
  end.

(** What the route answers: the reply of the function, or the 429 of
    the limiter. *)
Inductive served : Type :=
  | TooManyRequests      (* 429 from Flask-Limiter: the function is not run *)
  | Replied (r : reply).

(** Lines 110-317: the route.  The limiter of line 111,
    [@limiter.limit("10 per minute")], stands between the route and the
    function: a request over the limit is answered 429 and the function
    is not run.  Whether a request is within the limit is what
    Flask-Limiter makes of its count of the caller's requests and the
    clock; it is an input here. *)
Definition chat (W : World) (B : Web) (within_limit : bool)
           (payload : option Json.value) : M served :=
  if within_limit
  then r <- chat_body W B payload ;; ret (Replied r)
  else ret TooManyRequests.

(** The table [chat] answers from when the language is [lang]
    (line 302). *)
Definition responses_for (lang : str) : list (str * str) :=
  match dict_get responses lang with
  | Some table => table
  | None => default [] (dict_get responses (lit "pt"))
  end.

(** The request carries no query to answer: no JSON body or a body that
    Python takes as false, an object without ["query"], or a ["query"]
    string with nothing but whitespace in it. *)
Definition blank_request (payload : option Json.value) : Prop :=
  match payload with
  | None => True
  | Some v =>
      Json.truthy v = false ∨
      ∃ members, v = Json.JObj members ∧
        (dict_get members (lit "query") = None ∨
         ∃ s, dict_get members (lit "query") = Some (Json.JStr s) ∧
              ∀ c, c ∈ s → isspace c = true)
  end.

(** The request has a body that is not an object, or whose ["query"] is
    not a string. *)
Definition ill_typed_request (payload : option Json.value) : Prop :=
  ∃ v, payload = Some v ∧ Json.truthy v = true ∧
    match v with
    | Json.JObj members =>
        ∃ x, dict_get members (lit "query") = Some x ∧
             ∀ s, x ≠ Json.JStr s
    | _ => True
    end.

(** What the client sees of an outcome of the function: the status
    and the text, or the failure. *)
Definition visible_reply (out : result reply) : result (nat * str) :=
  match out with
  | Value r => Value (status r, response r)
  | Raised => Raised
  end.

(** What the client sees of an outcome of [chat]: the status and the
    text of a reply, the limiter's 429 ([None]), or the failure. *)
Definition visible (out : result served) : result (option (nat * str)) :=
  match out with
  | Value (Replied r) => Value (Some (status r, response r))
  | Value TooManyRequests => Value None
  | Raised => Raised
  end.

(** Requests served one after the other; each comes with what
    langdetect and the clock do while it is served, and with what the
    limiter decides for it. *)
Fixpoint serve (W : World)
         (requests : list (Web * bool * option Json.value))
         (st : state) : state :=
  match requests with
  | [] => st
  | (B, within_limit, payload) :: rest =>
      serve W rest (chat W B within_limit payload st).2
  end.

(** Instances of [Web] for the worked examples: langdetect answers
    ["en"], ["pt"], ["vi"] (a language without a table), or raises
    LangDetectException; the clock reads 03/11/2026 10:00. *)
Module Webs.

Definition at_ten (outcome : detect_outcome) : Web :=
  {| detect := fun _ => outcome; now := lit "03/11/2026 10:00" |}.

Definition english : Web := at_ten (Detected (lit "en")).
Definition portuguese : Web := at_ten (Detected (lit "pt")).
Definition vietnamese : Web := at_ten (Detected (lit "vi")).
Definition undetected : Web := at_ten NoLanguage.

(** The body [{"query": s}]. *)
Definition asking (s : str) : option Json.value :=
  Some (Json.JObj [(lit "query", Json.JStr s)]).

End Webs.

(** The number of models loaded: one or none. *)
Definition models_loaded (st : state) : nat :=
  match _model st with
  | Some _ => 1
  | None => 0
  end.

(** How many times a line occurs in the log. *)
Definition same_line (a b : log_line) : bool :=
  match a, b with
  | LoadingModel, LoadingModel => true
  | ModelLoaded, ModelLoaded => true
  | LoadError, LoadError => true
  | IntentError, IntentError => true
  | _, _ => false
  end.

Definition log_count (l : log_line) (lines : list log_line) : nat :=
  List.length (List.filter (same_line l) lines).



(** * Properties *)

(** ** Strings *)

Lemma startswith_spec (w q : str) :
  startswith w q = true ↔ ∃ b, q = w ++ b.
Proof.
  revert q. induction w as [|c w IH]; intros q; simpl.
  - split; [intros _; by exists q | done].
  - destruct q as [|d q].
    + split; [done | intros [b Hb]; discriminate].
    + rewrite andb_true_iff, N.eqb_eq, IH. split.
      * intros [-> [b ->]]. by exists b.
      * intros [b Hb]. injection Hb as -> ->. split; [done | by exists b].
Qed.

Lemma str_in_spec (w q : str) : str_in w q = true ↔ occurs_in w q.
Proof.
  unfold occurs_in. induction q as [|d q IH]; simpl.
  - rewrite orb_false_r, startswith_spec. split.
    + intros [b Hb]. by exists [], b.
    + intros [a [b Hab]]. destruct a; [by exists b | discriminate].
  - rewrite orb_true_iff, startswith_spec, IH. split.
    + intros [[b Hb] | [a [b Hab]]].
      * by exists [], b.
      * exists (d :: a), b. by rewrite Hab.
    + intros [a [b Hab]]. destruct a as [|e a].
      * left. by exists b.
      * right. injection Hab as _ ->. by exists a, b.
Qed.

Lemma any_in_spec (ws : list str) (q : str) :
  any_in ws q = true ↔ ∃ w, w ∈ ws ∧ occurs_in w q.
Proof.
  induction ws as [|w ws IH]; simpl.
  - split; [done | intros [w [Hw _]]; by apply elem_of_nil in Hw].
  - destruct (str_in w q) eqn:E.
    + split; [intros _ | done]. exists w. split; [left | by apply str_in_spec].
    + rewrite IH. split.
      * intros [w' [Hw' Ho]]. exists w'. split; [by right | done].
      * intros [w' [Hw' Ho]]. apply elem_of_cons in Hw' as [-> | Hw'].
        -- apply str_in_spec in Ho. congruence.
        -- by exists w'.
Qed.

(** Only whitespace is removed, so nothing is left of the empty string. *)
Lemma strip_nil : strip [] = [].
Proof. reflexivity. Qed.

(** No trigger is the empty string, hence none occurs in it. *)
Lemma occurs_in_nil (w : str) : occurs_in w [] → w = [].
Proof.
  intros [a [b Hab]]. symmetry in Hab.
  apply app_eq_nil in Hab as [_ Hab]. by apply app_eq_nil in Hab as [-> _].
Qed.

(** ** The keyword loop returns the first rule that matches *)

Lemma keyword_loop_first_match (items : list (str * list str)) (q : str) :
  (∃ i intent words,
      items !! i = Some (intent, words) ∧ rule_matches words q ∧
      (∀ j rule, (j < i)%nat → items !! j = Some rule →
                 ¬ rule_matches rule.2 q) ∧
      keyword_loop items q = intent)
  ∨ ((∀ rule, rule ∈ items → ¬ rule_matches rule.2 q) ∧
     keyword_loop items q = unknown).
Proof.
  induction items as [|[intent words] rest IH]; simpl.
  - right. split; [|done]. intros rule Hr. by apply elem_of_nil in Hr.
  - destruct (any_in words q) eqn:E.
    + left. exists 0%nat, intent, words. repeat split; [|intros; lia].
      by apply any_in_spec.
    + assert (Hno : ¬ rule_matches words q).
      { intros Hm. apply any_in_spec in Hm. congruence. }
      destruct IH as [(i & it & ws & Hi & Hm & Hbefore & Hres) | [Hnone Hres]].
      * left. exists (S i), it, ws. repeat split; try done.
        intros [|j] rule Hj Hl; simpl in Hl.
        -- by injection Hl as <-.
        -- apply (Hbefore j); [lia | done].
      * right. split; [|done]. intros rule Hr.
        apply elem_of_cons in Hr as [-> | Hr]; [done | by apply Hnone].
Qed.

(** A rule answers when one of its triggers occurs and no earlier rule
    has one that does. *)
Lemma keyword_loop_rule (items : list (str * list str)) (q : str)
      (i : nat) (intent : str) (words : list str) :
  items !! i = Some (intent, words) →
  rule_matches words q →
  (∀ j rule, (j < i)%nat → items !! j = Some rule →
             ¬ rule_matches rule.2 q) →
  keyword_loop items q = intent.
Proof.
  intros Hi Hmatch Hbefore.
  destruct (keyword_loop_first_match items q)
    as [(i' & it & ws & Hi' & Hm' & Hb' & Hr) | [Hnone _]].
  - destruct (Nat.lt_trichotomy i i') as [Hlt | [-> | Hgt]].
    + exfalso. by apply (Hb' i (intent, words) Hlt Hi).
    + rewrite Hi in Hi'. injection Hi' as -> ->. done.
    + exfalso. by apply (Hbefore i' (it, ws) Hgt Hi').
  - exfalso. apply (Hnone (intent, words)); [|done].
    by apply list_elem_of_lookup_2 in Hi.
Qed.

(** ** [load_model], call by call *)

Section LoadModel.

Variable W : World.

(** With a model in [_model], a call returns it and changes nothing. *)
Lemma load_model_set (st : state) (m : model) :
  _model st = Some m → load_model W st = (Value (Some m), st).
Proof.
  intros H. unfold load_model, bind, read_model, ret. simpl.
  rewrite H. simpl. by rewrite H.
Qed.

(** With [_model = None], a call runs the constructor; if it returns,
    the new model is stored and returned. *)
Lemma load_model_unset_ok (st : state) :
  _model st = None → construct W (constructions st) = true →
  load_model W st =
    (Value (Some (constructions st)),
     {| _model := Some (constructions st);
        _intent_cache := _intent_cache st;
        constructions := S (constructions st); encodes := encodes st;
        log := (log st ++ [LoadingModel]) ++ [ModelLoaded] |}).
Proof.
  intros Hm Hc.
  unfold load_model, bind, read_model, try_except, SentenceTransformer,
    logging, write_model, ret.
  simpl. rewrite Hm. simpl. by rewrite Hc.
Qed.

(** With [_model = None], a call runs the constructor; if it raises,
    [_model] stays [None] and [None] is returned. *)
Lemma load_model_unset_fail (st : state) :
  _model st = None → construct W (constructions st) = false →
  load_model W st =
    (Value None,
     {| _model := None; _intent_cache := _intent_cache st;
        constructions := S (constructions st); encodes := encodes st;
        log := (log st ++ [LoadingModel]) ++ [LoadError] |}).
Proof.
  intros Hm Hc.
  unfold load_model, bind, read_model, try_except, SentenceTransformer,
    logging, write_model, ret.
  simpl. rewrite Hm. simpl. by rewrite Hc.
Qed.

(** [load_model] always returns, never touches the cache or the
    [encode] counter, and what it returns is what it leaves in
    [_model]. *)
Lemma load_model_returns (st : state) :
  ∃ r st', load_model W st = (Value r, st') ∧
           _model st' = r ∧
           _intent_cache st' = _intent_cache st ∧
           encodes st' = encodes st ∧
           (∀ m, _model st = Some m → st' = st).
Proof.
  destruct (_model st) as [m|] eqn:Hm.
  - exists (Some m), st. rewrite (load_model_set _ _ Hm).
    repeat split; try done.
  - destruct (construct W (constructions st)) eqn:Hc.
    + eexists _, _. rewrite (load_model_unset_ok _ Hm Hc).
      repeat split; done.
    + eexists _, _. rewrite (load_model_unset_fail _ Hm Hc).
      repeat split; done.
Qed.

End LoadModel.

(** ** The scoring loop keeps the first of the largest scores *)

Lemma Qgt_bool_iff (x y : Q) : Qgt_bool x y = true ↔ (y < x)%Q.
Proof. unfold Qgt_bool, Qlt. apply Z.ltb_lt. Qed.

Lemma Qgt_bool_false_iff (x y : Q) : Qgt_bool x y = false ↔ (x <= y)%Q.
Proof. unfold Qgt_bool, Qle. apply Z.ltb_ge. Qed.

(** A best-so-far that no remaining score exceeds survives the loop. *)
Lemma pick_keeps (scored : list (Q * str)) (best : Q * str) :
  (∀ j p, scored !! j = Some p → (p.1 <= best.1)%Q) →
  pick scored best = best.
Proof.
  induction scored as [|[sc l] rest IH]; intros Hle; simpl; [done|].
  assert (Qgt_bool sc best.1 = false) as ->.
  { apply Qgt_bool_false_iff. apply (Hle 0%nat (sc, l)). done. }
  apply IH. intros j p Hj. apply (Hle (S j) p Hj).
Qed.

(** When the first of the largest scores beats the initial best, the
    loop ends with exactly that score and its label. *)
Lemma pick_first_max (scored : list (Q * str)) (best : Q * str)
      (i : nat) (sc : Q) (l : str) :
  scored !! i = Some (sc, l) →
  (∀ j p, scored !! j = Some p → (p.1 <= sc)%Q) →
  (∀ j p, (j < i)%nat → scored !! j = Some p → (p.1 < sc)%Q) →
  (best.1 < sc)%Q →
  pick scored best = (sc, l).
Proof.
  revert best i.
  induction scored as [|[s0 l0] rest IH]; intros best i Hi Hmax Hbefore Hb.
  - done.
  - simpl. destruct i as [|i]; simpl in Hi.
    + injection Hi as -> ->.
      assert (Qgt_bool sc best.1 = true) as -> by by apply Qgt_bool_iff.
      apply pick_keeps. intros j p Hj. apply (Hmax (S j) p Hj).
    + assert (Hs0 : (s0 < sc)%Q).
      { apply (Hbefore 0%nat (s0, l0)); [lia | done]. }
      apply (IH _ i Hi).
      * intros j p Hj. apply (Hmax (S j) p Hj).
      * intros j p Hji Hj. apply (Hbefore (S j) p); [lia | done].
      * by destruct (Qgt_bool s0 best.1).
Qed.

(** Every non-empty list of scores has a first largest element. *)
Lemma first_max_exists (scores : list Q) :
  scores ≠ [] → ∃ i sc, first_max scores i sc.
Proof.
  induction scores as [|s0 rest IH]; intros Hne; [done|].
  destruct rest as [|s1 rest'].
  - exists 0%nat, s0. split; [done|]. split.
    + intros [|j] sj Hj; simpl in Hj; [|done].
      injection Hj as <-. apply Qle_refl.
    + intros; lia.
  - destruct IH as (i & sc & Hi & Hmax & Hbefore); [done|].
    destruct (Qlt_le_dec s0 sc) as [Hlt | Hge].
    + exists (S i), sc. split; [done|]. split.
      * intros [|j] sj Hj; simpl in Hj.
        -- injection Hj as <-. by apply Qlt_le_weak.
        -- by apply (Hmax j).
      * intros [|j] sj Hji Hj; simpl in Hj.
        -- by injection Hj as <-.
        -- apply (Hbefore j); [lia | done].
    + exists 0%nat, s0. split; [done|]. split.
      * intros [|j] sj Hj; simpl in Hj.
        -- injection Hj as <-. apply Qle_refl.
        -- eapply Qle_trans; [by apply (Hmax j) | done].
      * intros; lia.
Qed.

(** ** The semantic path, step by step *)

Section SemanticPath.

Variable W : World.

(** The loop touches nothing but the [encode] counter. *)
Lemma score_loop_frame (m : model) (qe : emb W) (its : list str)
      (best : Q * str) (st : state) :
  ∃ n, (score_loop W m qe its best st).2 = more_encodes n st.
Proof.
  revert best st. induction its as [|intent rest IH]; intros best st.
  - exists 0%nat. by destruct st.
  - simpl. unfold bind, model_encode, cos_sim_item.
    destruct (encode W m (encodes st) intent) as [e|].
    + destruct (cos_sim W qe e) as [sc|].
      * match goal with |- context [score_loop W m qe rest ?b ?s] =>
          destruct (IH b s) as [n Hn]; rewrite Hn end.
        exists (S n). unfold more_encodes. simpl. f_equal. lia.
      * by exists 1%nat.
    + by exists 1%nat.
Qed.

(** When the provider answers every call, the loop ends with the pair
    [pick] computes, after one [encode] per label. *)
Lemma score_loop_ok (m : model) (qe : emb W) (its : list str)
      (scores : list Q) (best : Q * str) (st : state) :
  List.length scores = List.length its →
  (∀ i intent sc,
      its !! i = Some intent → scores !! i = Some sc →
      ∃ e, encode W m (encodes st + i) intent = Some e ∧
           cos_sim W qe e = Some sc) →
  score_loop W m qe its best st =
    (Value (pick (zip scores its) best),
     more_encodes (List.length its) st).
Proof.
  revert scores best st.
  induction its as [|intent rest IH]; intros scores best st Hlen Hans.
  - destruct scores; [|done]. by destruct st.
  - destruct scores as [|sc scores]; [done|]. simpl.
    destruct (Hans 0%nat intent sc) as (e & He & Hs); [done..|].
    rewrite Nat.add_0_r in He.
    unfold bind, model_encode, cos_sim_item. rewrite He, Hs.
    rewrite (IH scores).
    + unfold more_encodes. simpl. do 3 f_equal. lia.
    + simpl in Hlen. lia.
    + intros i it s Hi Hsi. simpl.
      destruct (Hans (S i) it s) as (e' & He' & Hs'); [done..|].
      exists e'. split; [|done]. by rewrite <- Nat.add_succ_r.
Qed.


(** The [try] block with a model in [_model], one step at a time. *)
Lemma semantic_body_unfold (query : str) (st : state) (m : model) :
  _model st = Some m →
  semantic_body W query st =
    match encode W m (encodes st) query with
    | None => (Raised, more_encodes 1 st)
    | Some qe =>
        match score_loop W m qe intents ((-1)%Q, unknown)
                (more_encodes 1 st) with
        | (Value best, st') =>
            (Value (decision best), stored query (decision best) st')
        | (Raised, st') => (Raised, st')
        end
    end.
Proof.
  intros Hm. unfold semantic_body.
  generalize intents as its. intros its.
  generalize ((-1)%Q, unknown) as b0. intros b0.
  unfold bind at 1. rewrite (load_model_set W st m Hm).
  unfold bind at 1, model_encode at 1.
  destruct (encode W m (encodes st) query) as [qe|]; [|reflexivity].
  unfold bind at 1. change (mkState (_model st) (_intent_cache st)
    (constructions st) (S (encodes st)) (log st)) with (more_encodes 1 st).
  destruct (score_loop W m qe its b0 (more_encodes 1 st)) as [[best|] st'];
    [|reflexivity].
  unfold decision, bind, cache_store, ret, stored.
  by destruct (Qgt_bool best.1 0.62%Q).
Qed.

(** The [try] block either returns after storing what it returns under
    the query, or raises with the cache and [_model] as they were. *)
Lemma semantic_body_cases (query : str) (st : state) (m : model) :
  _model st = Some m →
  (∃ r n, semantic_body W query st =
            (Value r, stored query r (more_encodes n st)) ∧ (0 < n)%nat)
  ∨ (∃ n, semantic_body W query st = (Raised, more_encodes n st) ∧
          (0 < n)%nat).
Proof.
  intros Hm. rewrite (semantic_body_unfold query st m Hm).
  destruct (encode W m (encodes st) query) as [qe|].
  - match goal with |- context [score_loop W m qe intents ?b ?s] =>
      destruct (score_loop_frame m qe intents b s) as [n Hn];
      destruct (score_loop W m qe intents b s) as [[best|] st'] end;
      cbn [snd] in Hn; subst st'.
    + left. exists (decision best), (S n). split; [|lia].
      unfold more_encodes, stored.
      cbn [_model _intent_cache constructions encodes log].
      by rewrite Nat.add_succ_r.
    + right. exists (S n). split; [|lia].
      unfold more_encodes.
      cbn [_model _intent_cache constructions encodes log].
      by rewrite Nat.add_succ_r.
  - right. exists 1%nat. split; [reflexivity | lia].
Qed.

(** When the provider answers every call, the [try] block stores and
    returns the threshold decision. *)
Lemma semantic_body_ok (query : str) (st : state) (m : model)
      (qe : emb W) (scores : list Q) :
  _model st = Some m →
  provider_answers W st m query qe scores →
  semantic_body W query st =
    (Value (decision (pick (zip scores intents) ((-1)%Q, unknown))),
     stored query (decision (pick (zip scores intents) ((-1)%Q, unknown)))
       (more_encodes (S (List.length intents)) st)).
Proof.
  intros Hm (Hq & Hlen & Hans).
  rewrite (semantic_body_unfold query st m Hm), Hq.
  rewrite (score_loop_ok m qe intents scores); [|done..].
  unfold more_encodes, stored.
  cbn [_model _intent_cache constructions encodes log].
  by rewrite Nat.add_succ_r.
Qed.

End SemanticPath.

(** ** [get_intent], path by path *)

Section GetIntent.

Variable W : World.

Lemma get_intent_unfold (q : str) (st : state) :
  get_intent W q st =
    match load_model W st with
    | (Value None, st1) => (Value (keyword_loop keywords (normalized W q)), st1)
    | (Value (Some _), st1) =>
        match _intent_cache st1 !! normalized W q with
        | Some cached => (Value cached, st1)
        | None =>
            match semantic_body W (normalized W q) st1 with
            | (Value r, st2) => (Value r, st2)
            | (Raised, st2) => (Value unknown, logged IntentError st2)
            end
        end
    | (Raised, st1) => (Raised, st1)
    end.
Proof.
  unfold get_intent, normalized. unfold bind at 1.
  destruct (load_model W st) as [[[m|]|] st1]; try reflexivity.
  unfold bind, read_cache. cbn [fst snd].
  destruct (_intent_cache st1 !! strip (lower W q)); [reflexivity|].
  unfold try_except.
  by destruct (semantic_body W (strip (lower W q)) st1) as [[r|] st2].
Qed.

(** The keyword path: the loop's answer, and the state [load_model]
    left. *)
Lemma get_intent_keyword (q : str) (st : state) :
  keyword_path W st →
  get_intent W q st =
    (Value (keyword_loop keywords (normalized W q)), (load_model W st).2).
Proof.
  unfold keyword_path. intros H. rewrite get_intent_unfold.
  destruct (load_model W st) as [r st1]. simpl in H. by subst r.
Qed.

(** The semantic path, query cached. *)
Lemma get_intent_cached (q : str) (st : state) (m : model) (d : str) :
  _model st = Some m →
  _intent_cache st !! normalized W q = Some d →
  get_intent W q st = (Value d, st).
Proof.
  intros Hm Hc. rewrite get_intent_unfold, (load_model_set W st m Hm).
  by rewrite Hc.
Qed.

(** The semantic path, query not cached. *)
Lemma get_intent_fresh (q : str) (st : state) (m : model) :
  _model st = Some m →
  _intent_cache st !! normalized W q = None →
  get_intent W q st =
    match semantic_body W (normalized W q) st with
    | (Value r, st2) => (Value r, st2)
    | (Raised, st2) => (Value unknown, logged IntentError st2)
    end.
Proof.
  intros Hm Hc. rewrite get_intent_unfold, (load_model_set W st m Hm).
  by rewrite Hc.
Qed.

(** A call that gets a model from [load_model] behaves as a call made
    in the state [load_model] leaves, where [_model] is set. *)
Lemma get_intent_after_load (q : str) (st : state) (m : model) :
  semantic_path W st m →
  _model (load_model W st).2 = Some m ∧
  _intent_cache (load_model W st).2 = _intent_cache st ∧
  encodes (load_model W st).2 = encodes st ∧
  get_intent W q st = get_intent W q (load_model W st).2.
Proof.
  unfold semantic_path. intros H.
  destruct (load_model_returns W st) as (r & st1 & E & Hr & Hc & He & _).
  rewrite E in H |- *. simpl in H. injection H as ->. simpl.
  repeat split; try done.
  rewrite !get_intent_unfold, E, (load_model_set W st1 m Hr). done.
Qed.

End GetIntent.

(** ** The keyword path *)

(** C5. Keyword path.  When a call finds no model, the answer is the
    label of the first rule, in the order the rules are written, one of
    whose triggers occurs in the normalized query, and ['unknown'] when
    no rule has one.  The call leaves the cache and [_model] as they
    were, and its answer is the same in every state without a model and
    for every query with the same normal form: the cache is not
    consulted. *)
Theorem keyword_path_first_match (W : World) (st : state) (q : str) :
  keyword_path W st →
  ((∃ i intent words,
       keywords !! i = Some (intent, words) ∧
       rule_matches words (normalized W q) ∧
       (∀ j rule, (j < i)%nat → keywords !! j = Some rule →
                  ¬ rule_matches rule.2 (normalized W q)) ∧
       (get_intent W q st).1 = Value intent)
   ∨ ((∀ rule, rule ∈ keywords → ¬ rule_matches rule.2 (normalized W q)) ∧
      (get_intent W q st).1 = Value unknown))
  ∧ _intent_cache (get_intent W q st).2 = _intent_cache st
  ∧ _model (get_intent W q st).2 = None
  ∧ (∀ st' q', keyword_path W st' →
               normalized W q' = normalized W q →
               (get_intent W q' st').1 = (get_intent W q st).1).
Proof.
  intros Hk. rewrite (get_intent_keyword W q st Hk). cbn [fst snd].
  split; [|split; [|split]].
  - destruct (keyword_loop_first_match keywords (normalized W q))
      as [(i & it & ws & Hi & Hm & Hb & Hr) | [Hn Hr]].
    + left. exists i, it, ws. by rewrite Hr.
    + right. by rewrite Hr.
  - by destruct (load_model_returns W st) as (r & st1 & -> & _ & Hc & _).
  - destruct (load_model_returns W st) as (r & st1 & E & Hr & _).
    unfold keyword_path in Hk. rewrite E in Hk |- *. simpl in *. congruence.
  - intros st' q' Hk' Hq. rewrite (get_intent_keyword W q' st' Hk').
    simpl. by rewrite Hq.
Qed.

Lemma keyword_path_first_match_witness :
  keyword_path Worlds.offline initial ∧
  (get_intent Worlds.offline (lit "quero fazer um depósito") initial).1
    = Value (lit "depósito") ∧
  _intent_cache
    (get_intent Worlds.offline (lit "quero fazer um depósito") initial).2
    = ∅.
Proof.
  assert (Hk : keyword_path Worlds.offline initial) by reflexivity.
  split; [exact Hk|].
  destruct (keyword_path_first_match Worlds.offline initial
              (lit "quero fazer um depósito") Hk) as (_ & Hc & _).
  split; [reflexivity | exact Hc].
Defined.

(** The two keyword-path examples of the specification. *)
Example keyword_deposit :
  (get_intent Worlds.offline (lit "quero fazer um depósito") initial).1
  = Value (lit "depósito").
Proof. reflexivity. Qed.

Example keyword_nonsense :
  (get_intent Worlds.offline (lit "xyz nonsense") initial).1 = Value unknown.
Proof. reflexivity. Qed.

(** C9, as the code has it.  On the keyword path a trigger matches
    wherever it occurs in the normalized query, also inside a longer
    word, and the rule it belongs to answers whenever no trigger of an
    earlier rule occurs, whatever later rules would match.  So a query
    in which ['card'] occurs and no trigger of the two earlier rules
    ([depósito], [saldo]) occurs resolves to [cartão]. *)
Theorem keyword_substring_match (W : World) (st : state) (q : str) :
  keyword_path W st →
  (∀ i intent words w a b,
      keywords !! i = Some (intent, words) → w ∈ words →
      normalized W q = a ++ w ++ b →
      (∀ j rule, (j < i)%nat → keywords !! j = Some rule →
                 ¬ rule_matches rule.2 (normalized W q)) →
      (get_intent W q st).1 = Value intent)
  ∧ (occurs_in (lit "card") (normalized W q) →
     (∀ w, w ∈ [lit "depositar"; lit "depósito"; lit "tx hash";
                lit "adicionar fundos"; lit "saldo"; lit "quanto tenho";
                lit "balance"] →
           ¬ occurs_in w (normalized W q)) →
     (get_intent W q st).1 = Value (lit "cartão")).
Proof.
  intros Hk.
  assert (Hgen : ∀ i intent words w,
      keywords !! i = Some (intent, words) → w ∈ words →
      occurs_in w (normalized W q) →
      (∀ j rule, (j < i)%nat → keywords !! j = Some rule →
                 ¬ rule_matches rule.2 (normalized W q)) →
      (get_intent W q st).1 = Value intent).
  { intros i intent words w Hi Hw Ho Hbefore.
    rewrite (get_intent_keyword W q st Hk). cbn [fst]. f_equal.
    apply (keyword_loop_rule keywords _ i intent words Hi); [|done].
    by exists w. }
  split.
  - intros i intent words w a b Hi Hw Hq. apply (Hgen i intent words w Hi Hw).
    by exists a, b.
  - intros Hcard Hnone.
    apply (Hgen 2%nat (lit "cartão")
             [lit "cartão"; lit "card"; lit "kard"] (lit "card"));
      [reflexivity | by right; left | done |].
    intros j rule Hj Hl [w [Hw Ho]].
    apply (Hnone w); [|done].
    apply list_elem_of_In in Hw. apply list_elem_of_In.
    destruct j as [|[|j]]; [| |lia]; simpl in Hl; injection Hl as <-;
      simpl in Hw |- *; tauto.
Qed.

Lemma keyword_substring_match_witness :
  keyword_path Worlds.offline initial ∧
  (get_intent Worlds.offline (lit "My DISCARD pile") initial).1
    = Value (lit "cartão").
Proof.
  assert (Hk : keyword_path Worlds.offline initial) by reflexivity.
  split; [exact Hk|].
  destruct (keyword_substring_match Worlds.offline initial
              (lit "My DISCARD pile") Hk) as [_ Hcard].
  apply Hcard.
  - apply str_in_spec. reflexivity.
  - intros w Hw Ho. apply str_in_spec in Ho.
    apply list_elem_of_In in Hw. simpl in Hw.
    repeat (destruct Hw as [<- | Hw]; [vm_compute in Ho; discriminate|]).
    destruct Hw.
Defined.

(** C9, as stated, fails: ['card'] occurs in the query below, yet the
    earlier rule [saldo] answers. *)
Lemma card_query_answered_by_saldo :
  keyword_path Worlds.offline initial ∧
  occurs_in (lit "card") (normalized Worlds.offline (lit "saldo do card")) ∧
  (get_intent Worlds.offline (lit "saldo do card") initial).1
    = Value (lit "saldo") ∧
  (get_intent Worlds.offline (lit "saldo do card") initial).1
    ≠ Value (lit "cartão").
Proof.
  split; [reflexivity|]. split; [by apply str_in_spec|].
  split; [reflexivity|]. vm_compute. discriminate.
Qed.

(** ** The semantic path *)

(** No label is the sentinel. *)
Lemma intents_not_unknown (i : nat) (l : str) :
  intents !! i = Some l → l ≠ unknown.
Proof.
  intros Hi. do 8 (destruct i as [|i]; [by injection Hi as <-|]).
  discriminate.
Qed.

(** The threshold decision on the scores of the labels: the label of
    the first largest score if that score exceeds 0.62, ['unknown']
    otherwise. *)
Lemma decision_first_max (scores : list Q) (i : nat) (sc : Q) (best : str) :
  first_max scores i sc → intents !! i = Some best →
  ((0.62 < sc)%Q →
   decision (pick (zip scores intents) ((-1)%Q, unknown)) = best) ∧
  ((sc <= 0.62)%Q →
   decision (pick (zip scores intents) ((-1)%Q, unknown)) = unknown).
Proof.
  intros (Hi & Hmax & Hbefore) Hl.
  assert (Hzi : zip scores intents !! i = Some (sc, best)).
  { by apply lookup_zip_Some. }
  assert (Hzmax : ∀ j p, zip scores intents !! j = Some p → (p.1 <= sc)%Q).
  { intros j [s l] Hj. apply lookup_zip_Some in Hj as [Hj _].
    by apply (Hmax j). }
  assert (Hzbefore : ∀ j p, (j < i)%nat → zip scores intents !! j = Some p →
                            (p.1 < sc)%Q).
  { intros j [s l] Hji Hj. apply lookup_zip_Some in Hj as [Hj _].
    by apply (Hbefore j). }
  assert (Hpick : ((-1) < sc)%Q →
                  pick (zip scores intents) ((-1)%Q, unknown) = (sc, best)).
  { intros Hlt. by apply (pick_first_max _ _ i). }
  split; intros Hsc.
  - rewrite Hpick; [|by eapply Qlt_trans; [|exact Hsc]].
    unfold decision. cbn [fst snd].
    by apply Qgt_bool_iff in Hsc as ->.
  - destruct (Qlt_le_dec (-1) sc) as [Hlt | Hle].
    + rewrite (Hpick Hlt). unfold decision. cbn [fst snd].
      by apply Qgt_bool_false_iff in Hsc as ->.
    + rewrite pick_keeps; [done|].
      intros j p Hj. eapply Qle_trans; [by apply (Hzmax j) | done].
Qed.

Section SemanticCalls.

Variable W : World.

(** [get_intent] always returns. *)
Lemma get_intent_returns (q : str) (st : state) :
  ∃ l, (get_intent W q st).1 = Value l.
Proof.
  rewrite get_intent_unfold.
  destruct (load_model_returns W st) as (r & st1 & -> & _).
  destruct r as [m|]; [|by eexists].
  destruct (_intent_cache st1 !! normalized W q); [by eexists|].
  destruct (semantic_body W (normalized W q) st1) as [[l|] st2];
    by eexists.
Qed.

(** A semantic-path call on a query that is not cached, with a
    provider that answers: the threshold decision is stored and
    returned, after one [encode] for the query and one per label. *)
Lemma get_intent_semantic_ok (q : str) (st : state) (m : model)
      (qe : emb W) (scores : list Q) :
  semantic_path W st m →
  _intent_cache st !! normalized W q = None →
  provider_answers W st m (normalized W q) qe scores →
  get_intent W q st =
    (Value (decision (pick (zip scores intents) ((-1)%Q, unknown))),
     stored (normalized W q)
       (decision (pick (zip scores intents) ((-1)%Q, unknown)))
       (more_encodes (S (List.length intents)) (load_model W st).2)).
Proof.
  intros Hs Hc Hp.
  destruct (get_intent_after_load W q st m Hs) as (Hm & Hc1 & He1 & ->).
  rewrite (get_intent_fresh W q _ m Hm); [|by rewrite Hc1].
  rewrite (semantic_body_ok W _ _ m qe scores Hm); [done|].
  unfold provider_answers in *. by rewrite He1.
Qed.

End SemanticCalls.

(** C2. Semantic-path selection.  For a query that reaches the scoring
    loop (model available, query not cached, every provider call
    answered), let [sc] be the first largest of the labels' scores and
    [best] its label.  The call returns [best] when [sc] exceeds 0.62
    and ['unknown'] when it does not, a score of exactly 0.62
    included; and [best] is never ['unknown'], so [best] is returned if
    and only if [sc > 0.62]. *)
Theorem semantic_selection (W : World) (st : state) (q : str) (m : model)
        (qe : emb W) (scores : list Q) :
  semantic_path W st m →
  _intent_cache st !! normalized W q = None →
  provider_answers W st m (normalized W q) qe scores →
  ∃ i best sc,
    intents !! i = Some best ∧ first_max scores i sc ∧ best ≠ unknown ∧
    ((0.62 < sc)%Q → (get_intent W q st).1 = Value best) ∧
    ((sc <= 0.62)%Q → (get_intent W q st).1 = Value unknown) ∧
    ((get_intent W q st).1 = Value best ↔ (0.62 < sc)%Q).
Proof.
  intros Hs Hc Hp.
  rewrite (get_intent_semantic_ok W q st m qe scores Hs Hc Hp). cbn [fst].
  destruct Hp as (_ & Hlen & _).
  destruct (first_max_exists scores) as (i & sc & Hfm).
  { intros E. rewrite E in Hlen. discriminate. }
  assert (is_Some (intents !! i)) as [best Hbest].
  { apply lookup_lt_is_Some. rewrite <- Hlen.
    apply lookup_lt_is_Some. destruct Hfm as [Hi _]. by eexists. }
  destruct (decision_first_max scores i sc best Hfm Hbest) as [Hgt Hle].
  pose proof (intents_not_unknown i best Hbest) as Hne.
  exists i, best, sc.
  split; [done|]. split; [done|]. split; [done|].
  split; [|split; [|split]].
  - intros Hsc. by rewrite (Hgt Hsc).
  - intros Hsc. by rewrite (Hle Hsc).
  - intros Heq. destruct (Qlt_le_dec 0.62 sc) as [|Hsc]; [done|].
    rewrite (Hle Hsc) in Heq. by injection Heq as <-.
  - intros Hsc. by rewrite (Hgt Hsc).
Qed.

Lemma semantic_selection_witness :
  ∃ i best sc,
    intents !! i = Some best ∧
    first_max [0.1; 0.62; 0.1; 0.1; 0.1; 0.1; 0.1; 0.1]%Q i sc ∧
    best ≠ unknown ∧
    ((0.62 < sc)%Q →
     (get_intent Worlds.boundary (lit " OI ") initial).1 = Value best) ∧
    ((sc <= 0.62)%Q →
     (get_intent Worlds.boundary (lit " OI ") initial).1 = Value unknown) ∧
    ((get_intent Worlds.boundary (lit " OI ") initial).1 = Value best
     ↔ (0.62 < sc)%Q).
Proof.
  apply (semantic_selection Worlds.boundary initial (lit " OI ") 0%nat
           (lit "oi") [0.1; 0.62; 0.1; 0.1; 0.1; 0.1; 0.1; 0.1]%Q).
  - reflexivity.
  - reflexivity.
  - split; [reflexivity|]. split; [reflexivity|].
    intros i intent sc Hi Hs.
    do 8 (destruct i as [|i];
          [injection Hi as <-; injection Hs as <-; eexists; split;
           reflexivity|]).
    discriminate.
Defined.

(** The threshold and tie-break examples of the specification. *)
Example threshold_exact :
  (get_intent Worlds.boundary (lit "oi") initial).1 = Value unknown.
Proof. reflexivity. Qed.

Example threshold_just_above :
  (get_intent Worlds.just_above (lit "oi") initial).1 = Value (lit "saldo").
Proof. reflexivity. Qed.

Example tie_goes_to_first :
  (get_intent Worlds.tie (lit "oi") initial).1 = Value (lit "saldo").
Proof. reflexivity. Qed.

(** ** Empty queries *)

(** C6, as the code has it.  A query that is empty after normalization
    is accepted and answered like any other: the call returns a label
    and does not raise; on the keyword path the answer is ['unknown'];
    on the semantic path, when the empty string is not cached and the
    provider answers, the answer is the threshold decision on the scores
    the provider gives the empty string. *)
Theorem empty_query (W : World) (st : state) (q : str) :
  normalized W q = [] →
  (keyword_path W st → (get_intent W q st).1 = Value unknown)
  ∧ (∃ l, (get_intent W q st).1 = Value l)
  ∧ (∀ m qe scores,
        semantic_path W st m →
        _intent_cache st !! [] = None →
        provider_answers W st m [] qe scores →
        (get_intent W q st).1 =
          Value (decision (pick (zip scores intents) ((-1)%Q, unknown)))).
Proof.
  intros Hq. split; [|split].
  - intros Hk. rewrite (get_intent_keyword W q st Hk), Hq. reflexivity.
  - apply get_intent_returns.
  - intros m qe scores Hs Hc Hp. rewrite <- Hq in Hc, Hp.
    by rewrite (get_intent_semantic_ok W q st m qe scores Hs Hc Hp).
Qed.

Lemma empty_query_witness :
  normalized Worlds.offline (lit "   ") = [] ∧
  (get_intent Worlds.offline (lit "   ") initial).1 = Value unknown.
Proof.
  assert (Hq : normalized Worlds.offline (lit "   ") = []) by reflexivity.
  split; [exact Hq|].
  destruct (empty_query Worlds.offline initial (lit "   ") Hq) as [Hk _].
  apply Hk. reflexivity.
Defined.

(** C6, as stated, fails on the semantic path: a whitespace-only query
    is answered with a label when the provider scores the empty string
    above the threshold against that label. *)
Lemma empty_query_gets_a_label :
  normalized Worlds.empty_hit (lit "   ") = [] ∧
  semantic_path Worlds.empty_hit initial 0%nat ∧
  (get_intent Worlds.empty_hit (lit "   ") initial).1 = Value (lit "fees") ∧
  (get_intent Worlds.empty_hit (lit "   ") initial).1 ≠ Value unknown.
Proof.
  split; [reflexivity|]. split; [reflexivity|]. split; [reflexivity|].
  vm_compute. discriminate.
Qed.

(** ** Every call returns a label *)

Lemma unknown_label : unknown ∈ IntentLabel.
Proof. unfold IntentLabel. apply elem_of_app. right. by left. Qed.

Lemma intent_label (l : str) : l ∈ intents → l ∈ IntentLabel.
Proof. intros H. unfold IntentLabel. apply elem_of_app. by left. Qed.

(** The keyword loop answers with the label of one of its rules, or
    with the sentinel. *)
Lemma keyword_loop_label (items : list (str * list str)) (q : str) :
  keyword_loop items q ∈ items.*1 ∨ keyword_loop items q = unknown.
Proof.
  induction items as [|[intent words] rest IH]; simpl; [by right|].
  destruct (any_in words q).
  - left. by left.
  - destruct IH as [IH | IH]; [left; by right | by right].
Qed.

Lemma keywords_labels : keywords.*1 = intents.
Proof. reflexivity. Qed.

Section Totality.

Variable W : World.

(** The scoring loop ends with one of the labels it met, or with the
    label it started from. *)
Lemma score_loop_label (m : model) (qe : emb W) (its : list str)
      (best r : Q * str) (st st' : state) :
  score_loop W m qe its best st = (Value r, st') →
  r.2 ∈ its ∨ r.2 = best.2.
Proof.
  revert best st. induction its as [|intent rest IH]; intros best st.
  - unfold score_loop, ret. intros [= <- _]. by right.
  - simpl. unfold bind at 1, model_encode at 1.
    destruct (encode W m (encodes st) intent) as [e|]; [|done].
    unfold bind at 1, cos_sim_item at 1.
    destruct (cos_sim W qe e) as [sc|]; [|done].
    intros H. apply IH in H as [H | H]; [left; by right|].
    destruct (Qgt_bool sc best.1); [|by right].
    left. simpl in H. rewrite H. by left.
Qed.

(** A call made with labels in the cache returns a label and leaves
    labels in the cache. *)
Lemma get_intent_label (q : str) (st : state) :
  cache_ok st →
  ∃ l, (get_intent W q st).1 = Value l ∧ l ∈ IntentLabel ∧
       cache_ok (get_intent W q st).2.
Proof.
  intros Hok. rewrite get_intent_unfold.
  destruct (load_model_returns W st) as (r & st1 & -> & Hr & Hc & _).
  assert (Hok1 : cache_ok st1).
  { unfold cache_ok. by rewrite Hc. }
  destruct r as [m|].
  - destruct (_intent_cache st1 !! normalized W q) as [d|] eqn:Hd.
    + exists d. split; [done|]. split; [by apply (Hok1 _ d Hd) | done].
    + rewrite (semantic_body_unfold W _ st1 m Hr).
      destruct (encode W m (encodes st1) (normalized W q)) as [qe|].
      * destruct (score_loop W m qe intents ((-1)%Q, unknown)
                    (more_encodes 1 st1)) as [[best|] st2] eqn:Hloop.
        -- pose proof (score_loop_frame W m qe intents ((-1)%Q, unknown)
                         (more_encodes 1 st1)) as [n Hn].
           rewrite Hloop in Hn. simpl in Hn. subst st2.
           assert (Hlab : decision best ∈ IntentLabel).
           { unfold decision. destruct (Qgt_bool best.1 0.62%Q);
               [|apply unknown_label].
             apply score_loop_label in Hloop as [H | H].
             - by apply intent_label.
             - rewrite H. apply unknown_label. }
           exists (decision best). split; [done|]. split; [done|].
           intros k v. cbn [snd stored more_encodes _intent_cache].
           destruct (decide (normalized W q = k)) as [<- | Hne].
           ++ rewrite lookup_insert_eq. by intros [= <-].
           ++ rewrite lookup_insert_ne by done. apply Hok1.
        -- pose proof (score_loop_frame W m qe intents ((-1)%Q, unknown)
                         (more_encodes 1 st1)) as [n Hn].
           rewrite Hloop in Hn. simpl in Hn. subst st2.
           exists unknown. split; [done|]. split; [apply unknown_label|].
           exact Hok1.
      * exists unknown. split; [done|]. split; [apply unknown_label|].
        exact Hok1.
  - eexists. split; [done|]. split; [|done].
    destruct (keyword_loop_label keywords (normalized W q)) as [H | H].
    + rewrite keywords_labels in H. by apply intent_label.
    + rewrite H. apply unknown_label.
Qed.

Lemma run_cache_ok (qs : list str) (st : state) :
  cache_ok st → cache_ok (run W qs st).
Proof.
  revert st. induction qs as [|q qs IH]; intros st Hok; [done|].
  simpl. apply IH. by destruct (get_intent_label q st Hok) as (_ & _ & _ & H).
Qed.

End Totality.

(** C3. Totality of [get_intent].  In every state the process can be in
    (any number of earlier calls, on any queries, from start-up), a call
    on any string returns one of the eight labels or ['unknown'], and
    does not raise: whatever the constructor, [encode] or [cos_sim] do,
    their exceptions are caught inside. *)
Theorem get_intent_total (W : World) (earlier : list str) (q : str) :
  ∃ l, (get_intent W q (run W earlier initial)).1 = Value l ∧
       l ∈ IntentLabel.
Proof.
  destruct (get_intent_label W q (run W earlier initial)) as (l & Hl & Hin & _).
  - apply run_cache_ok. intros k v Hk. simpl in Hk.
    by rewrite lookup_empty in Hk.
  - by exists l.
Qed.

(** ** Failures of the provider *)

Section Failures.

Variable W : World.

(** The loop raises when a provider call for one of its labels does. *)
Lemma score_loop_raises (m : model) (qe : emb W) (its : list str)
      (best : Q * str) (st : state) (i : nat) (intent : str) :
  its !! i = Some intent →
  (∀ j it, (j < i)%nat → its !! j = Some it →
           ∃ e sc, encode W m (encodes st + j) it = Some e ∧
                   cos_sim W qe e = Some sc) →
  (encode W m (encodes st + i) intent = None ∨
   ∃ e, encode W m (encodes st + i) intent = Some e ∧
        cos_sim W qe e = None) →
  (score_loop W m qe its best st).1 = Raised.
Proof.
  revert best st i.
  induction its as [|it0 rest IH]; intros best st i Hi Hbefore Hfail;
    [done|].
  simpl. unfold bind at 1, model_encode at 1.
  destruct i as [|i]; simpl in Hi.
  - injection Hi as ->. rewrite Nat.add_0_r in Hfail.
    destruct Hfail as [-> | (e & -> & Hs)]; [done|].
    unfold bind at 1, cos_sim_item at 1. by rewrite Hs.
  - destruct (Hbefore 0%nat it0) as (e & sc & He & Hs); [lia | done |].
    rewrite Nat.add_0_r in He. rewrite He.
    unfold bind at 1, cos_sim_item at 1. rewrite Hs.
    apply (IH _ _ i Hi).
    + intros j it Hj Hl. simpl.
      destruct (Hbefore (S j) it) as (e' & sc' & He' & Hs');
        [lia | done |].
      exists e', sc'. by rewrite <- Nat.add_succ_r.
    + simpl. by rewrite <- Nat.add_succ_r.
Qed.

(** A semantic-path call on a query that is not cached, with a
    provider that fails: the handler logs the error and returns
    ['unknown']; only the [encode] counter and the log have moved. *)
Lemma get_intent_provider_fails (q : str) (st : state) (m : model) :
  _model st = Some m →
  _intent_cache st !! normalized W q = None →
  provider_fails W st m (normalized W q) →
  ∃ n, (0 < n)%nat ∧
       get_intent W q st =
         (Value unknown, logged IntentError (more_encodes n st)).
Proof.
  intros Hm Hc Hf.
  assert (Hraise : (semantic_body W (normalized W q) st).1 = Raised).
  { rewrite (semantic_body_unfold W _ st m Hm).
    destruct Hf as [-> | (qe & i & intent & -> & Hi & Hbefore & Hfail)];
      [done|].
    pose proof (score_loop_raises m qe intents ((-1)%Q, unknown)
                  (more_encodes 1 st) i intent Hi Hbefore Hfail) as Hr.
    destruct (score_loop W m qe intents ((-1)%Q, unknown)
                (more_encodes 1 st)) as [[b|] st2]; [done | done]. }
  rewrite (get_intent_fresh W q st m Hm Hc).
  destruct (semantic_body_cases W (normalized W q) st m Hm)
    as [(r & n & E & Hn) | (n & E & Hn)]; rewrite E in Hraise |- *.
  - done.
  - by exists n.
Qed.

(** The provider either answers every call of the loop or fails at a
    first one: the two cases the statements below distinguish cover
    every run of the loop. *)
Lemma labels_answered_or_not (m : model) (qe : emb W) (its : list str)
      (k : nat) :
  (∃ scores,
      List.length scores = List.length its ∧
      ∀ i intent sc, its !! i = Some intent → scores !! i = Some sc →
                     ∃ e, encode W m (k + i) intent = Some e ∧
                          cos_sim W qe e = Some sc)
  ∨ (∃ i intent,
        its !! i = Some intent ∧
        (∀ j it, (j < i)%nat → its !! j = Some it →
                 ∃ e sc, encode W m (k + j) it = Some e ∧
                         cos_sim W qe e = Some sc) ∧
        (encode W m (k + i) intent = None ∨
         ∃ e, encode W m (k + i) intent = Some e ∧ cos_sim W qe e = None)).
Proof.
  revert k. induction its as [|it0 rest IH]; intros k.
  - left. exists []. split; [done|]. intros i intent sc Hi. done.
  - destruct (encode W m (k + 0) it0) as [e|] eqn:He.
    + destruct (cos_sim W qe e) as [sc|] eqn:Hs.
      * destruct (IH (S k)) as [(scores & Hlen & Hans)
                               | (i & intent & Hi & Hbefore & Hfail)].
        -- left. exists (sc :: scores). split; [simpl; lia|].
           intros [|i] intent s Hi Hsi; simpl in Hi, Hsi.
           ++ injection Hi as <-. injection Hsi as <-. by exists e.
           ++ rewrite Nat.add_succ_r. by apply Hans.
        -- right. exists (S i), intent. split; [done|]. split.
           ++ intros [|j] it Hj Hl; simpl in Hl.
              ** injection Hl as <-. by exists e, sc.
              ** rewrite Nat.add_succ_r. apply Hbefore; [lia | done].
           ++ by rewrite Nat.add_succ_r.
      * right. exists 0%nat, it0. split; [done|]. split; [intros; lia|].
        right. by exists e.
    + right. exists 0%nat, it0. split; [done|]. split; [intros; lia|].
      by left.
Qed.

Lemma provider_answers_or_fails (st : state) (m : model) (query : str) :
  (∃ qe scores, provider_answers W st m query qe scores)
  ∨ provider_fails W st m query.
Proof.
  unfold provider_answers, provider_fails.
  destruct (encode W m (encodes st) query) as [qe|]; [|by right; left].
  destruct (labels_answered_or_not m qe intents (S (encodes st)))
    as [(scores & Hlen & Hans) | (i & intent & Hi & Hbefore & Hfail)].
  - left. by exists qe, scores.
  - right. right. by exists qe, i, intent.
Qed.

(** With a model in [_model], a call keeps the model and every
    decision already in the cache. *)
Lemma get_intent_keeps (q : str) (st : state) (m : model) :
  _model st = Some m →
  _model (get_intent W q st).2 = Some m ∧
  (∀ k v, _intent_cache st !! k = Some v →
          _intent_cache (get_intent W q st).2 !! k = Some v) ∧
  (_intent_cache st !! normalized W q = None →
   (encodes st < encodes (get_intent W q st).2)%nat).
Proof.
  intros Hm.
  destruct (_intent_cache st !! normalized W q) as [d|] eqn:Hc.
  - rewrite (get_intent_cached W q st m d Hm Hc). by repeat split.
  - rewrite (get_intent_fresh W q st m Hm Hc).
    destruct (semantic_body_cases W (normalized W q) st m Hm)
      as [(r & n & -> & Hn) | (n & -> & Hn)]; cbn [snd]; simpl.
    + split; [done|]. split; [|lia].
      intros k v Hk. rewrite lookup_insert_ne; [done|]. congruence.
    + split; [done|]. split; [done | lia].
Qed.

Lemma run_keeps (qs : list str) (st : state) (m : model) :
  _model st = Some m →
  _model (run W qs st) = Some m ∧
  (∀ k v, _intent_cache st !! k = Some v →
          _intent_cache (run W qs st) !! k = Some v).
Proof.
  revert st. induction qs as [|q qs IH]; intros st Hm; [done|].
  simpl. destruct (get_intent_keeps q st m Hm) as (Hm' & Hkeep & _).
  destruct (IH _ Hm') as [Hm'' Hkeep']. split; [done|].
  intros k v Hk. by apply Hkeep', Hkeep.
Qed.

End Failures.

(** A semantic-path call that fails, from any state: what
    [get_intent_provider_fails] says once [load_model] has run. *)
Lemma get_intent_fails_from (W : World) (q : str) (st : state) (m : model) :
  semantic_path W st m →
  _intent_cache st !! normalized W q = None →
  provider_fails W st m (normalized W q) →
  ∃ n, (0 < n)%nat ∧
       get_intent W q st =
         (Value unknown,
          logged IntentError (more_encodes n (load_model W st).2)).
Proof.
  intros Hs Hc Hf.
  destruct (get_intent_after_load W q st m Hs) as (Hm & Hc1 & He1 & ->).
  apply (get_intent_provider_fails W q _ m Hm); [by rewrite Hc1|].
  unfold provider_fails in *. by rewrite He1.
Qed.

(** C7. Error atomicity.  When a provider call raises during a
    semantic-path resolution, the call returns ['unknown'] and the cache
    is the one the call found: no decision is added, changed or
    removed. *)
Theorem error_atomicity (W : World) (st : state) (q : str) (m : model) :
  semantic_path W st m →
  _intent_cache st !! normalized W q = None →
  provider_fails W st m (normalized W q) →
  (get_intent W q st).1 = Value unknown ∧
  _intent_cache (get_intent W q st).2 = _intent_cache st.
Proof.
  intros Hs Hc Hf.
  destruct (get_intent_fails_from W q st m Hs Hc Hf) as (n & _ & ->).
  split; [done|]. cbn [snd logged more_encodes _intent_cache].
  by destruct (get_intent_after_load W q st m Hs) as (_ & -> & _).
Qed.

Lemma error_atomicity_witness :
  _intent_cache (run Worlds.faulty [lit "oi"] initial) !! lit "oi"
    = Some (lit "saldo") ∧
  (get_intent Worlds.faulty (lit "boom")
     (run Worlds.faulty [lit "oi"] initial)).1 = Value unknown ∧
  _intent_cache
    (get_intent Worlds.faulty (lit "boom")
       (run Worlds.faulty [lit "oi"] initial)).2
  = _intent_cache (run Worlds.faulty [lit "oi"] initial).
Proof.
  split; [reflexivity|].
  apply (error_atomicity Worlds.faulty (run Worlds.faulty [lit "oi"] initial)
           (lit "boom") 0%nat).
  - reflexivity.
  - reflexivity.
  - left. reflexivity.
Defined.

(** C10. Error results are not cached.  After a semantic-path call in
    which a provider call raised, the query is still absent from the
    cache; the next call on it embeds again, and when the provider then
    answers it returns the threshold decision on the new scores. *)
Theorem errors_not_cached (W : World) (st : state) (q : str) (m : model) :
  semantic_path W st m →
  _intent_cache st !! normalized W q = None →
  provider_fails W st m (normalized W q) →
  (get_intent W q st).1 = Value unknown ∧
  _intent_cache (get_intent W q st).2 !! normalized W q = None ∧
  (encodes (get_intent W q st).2
   < encodes (get_intent W q (get_intent W q st).2).2)%nat ∧
  (∀ qe scores,
      provider_answers W (get_intent W q st).2 m (normalized W q) qe scores →
      (get_intent W q (get_intent W q st).2).1 =
        Value (decision (pick (zip scores intents) ((-1)%Q, unknown)))).
Proof.
  intros Hs Hc Hf.
  destruct (get_intent_fails_from W q st m Hs Hc Hf) as (n & _ & E).
  destruct (get_intent_after_load W q st m Hs) as (Hm & Hc1 & _ & _).
  assert (Hm' : _model (get_intent W q st).2 = Some m) by by rewrite E.
  assert (Hc' : _intent_cache (get_intent W q st).2 !! normalized W q = None).
  { rewrite E. cbn [snd logged more_encodes _intent_cache]. by rewrite Hc1. }
  split; [by rewrite E|]. split; [done|]. split.
  - by apply (get_intent_keeps W q _ m Hm').
  - intros qe scores Hp.
    rewrite (get_intent_semantic_ok W q _ m qe scores); [done | | done | done].
    unfold semantic_path. by rewrite (load_model_set W _ m Hm').
Qed.

Lemma errors_not_cached_witness :
  (get_intent Worlds.hiccup (lit "oi") initial).1 = Value unknown ∧
  _intent_cache (get_intent Worlds.hiccup (lit "oi") initial).2 !! lit "oi"
    = None ∧
  (get_intent Worlds.hiccup (lit "oi")
     (get_intent Worlds.hiccup (lit "oi") initial).2).1
    = Value (lit "saldo").
Proof.
  destruct (errors_not_cached Worlds.hiccup initial (lit "oi") 0%nat)
    as (Hr & Hc & _ & _).
  - reflexivity.
  - reflexivity.
  - right. exists (lit "oi"), 2%nat, (lit "cartão").
    split; [reflexivity|]. split; [reflexivity|]. split.
    + intros j it Hj Hl.
      destruct j as [|[|j]]; [| |lia]; injection Hl as <-;
        eexists _, _; split; reflexivity.
    + left. reflexivity.
  - split; [exact Hr|]. split; [exact Hc | reflexivity].
Defined.

(** ** The cache *)

(** When no label scores above 0.62 the threshold decision is
    ['unknown']. *)
Lemma decision_below (scores : list Q) :
  List.length scores = List.length intents →
  (∀ j sj, scores !! j = Some sj → (sj <= 0.62)%Q) →
  decision (pick (zip scores intents) ((-1)%Q, unknown)) = unknown.
Proof.
  intros Hlen Hall.
  destruct (first_max_exists scores) as (i & sc & Hfm).
  { intros E. rewrite E in Hlen. discriminate. }
  assert (is_Some (intents !! i)) as [best Hbest].
  { apply lookup_lt_is_Some. rewrite <- Hlen.
    apply lookup_lt_is_Some. destruct Hfm as [Hi _]. by eexists. }
  apply (decision_first_max scores i sc best Hfm Hbest).
  destruct Hfm as [Hi _]. by apply (Hall i).
Qed.

(** C4. Cache idempotence.  A semantic-path call on [q] that finds its
    normal form absent from the cache, and whose provider answers,
    stores the threshold decision under that normal form and returns
    it; the decision is ['unknown'] when no label scored above 0.62.
    Whatever decision [d] a semantic-path call leaves in the cache
    under the normal form of [q] is the one it returned, and every
    later call on a query with the same normal form, after any calls in
    between, returns [d] and leaves the state as it found it: no
    [encode], no log line, no change to the cache. *)
Theorem cache_idempotence (W : World) (st : state) (q : str) (m : model) :
  semantic_path W st m →
  (∀ qe scores,
      _intent_cache st !! normalized W q = None →
      provider_answers W st m (normalized W q) qe scores →
      (get_intent W q st).1
        = Value (decision (pick (zip scores intents) ((-1)%Q, unknown))) ∧
      _intent_cache (get_intent W q st).2 !! normalized W q
        = Some (decision (pick (zip scores intents) ((-1)%Q, unknown))) ∧
      ((∀ j sj, scores !! j = Some sj → (sj <= 0.62)%Q) →
       _intent_cache (get_intent W q st).2 !! normalized W q
         = Some unknown) ∧
      (∀ between q',
          normalized W q' = normalized W q →
          get_intent W q' (run W between (get_intent W q st).2)
          = (Value (decision (pick (zip scores intents) ((-1)%Q, unknown))),
             run W between (get_intent W q st).2)))
  ∧ (∀ d,
        _intent_cache (get_intent W q st).2 !! normalized W q = Some d →
        (get_intent W q st).1 = Value d
        ∧ (∀ between q',
              normalized W q' = normalized W q →
              get_intent W q' (run W between (get_intent W q st).2)
              = (Value d, run W between (get_intent W q st).2))
        ∧ (∀ qe scores,
              _intent_cache st !! normalized W q = None →
              provider_answers W st m (normalized W q) qe scores →
              (∀ j sj, scores !! j = Some sj → (sj <= 0.62)%Q) →
              d = unknown)).
Proof.
  intros Hs.
  destruct (get_intent_after_load W q st m Hs) as (Hm & Hc1 & He1 & E).
  assert (Hm' : _model (get_intent W q st).2 = Some m).
  { rewrite E. by apply get_intent_keeps. }
  assert (Hlater : ∀ d,
    _intent_cache (get_intent W q st).2 !! normalized W q = Some d →
    ∀ between q',
      normalized W q' = normalized W q →
      get_intent W q' (run W between (get_intent W q st).2)
      = (Value d, run W between (get_intent W q st).2)).
  { intros d Hd between q' Hq'.
    destruct (run_keeps W between _ m Hm') as [Hm'' Hkeep].
    apply (get_intent_cached W q' _ m d Hm''). rewrite Hq'. by apply Hkeep. }
  assert (Hstored : ∀ qe scores,
    _intent_cache st !! normalized W q = None →
    provider_answers W st m (normalized W q) qe scores →
    _intent_cache (get_intent W q st).2 !! normalized W q
    = Some (decision (pick (zip scores intents) ((-1)%Q, unknown)))).
  { intros qe scores Hc Hp.
    rewrite (get_intent_semantic_ok W q st m qe scores Hs Hc Hp).
    cbn [snd stored _intent_cache]. by rewrite lookup_insert_eq. }
  split.
  - intros qe scores Hc Hp.
    pose proof (Hstored qe scores Hc Hp) as Hd.
    split; [by rewrite (get_intent_semantic_ok W q st m qe scores Hs Hc Hp)|].
    split; [exact Hd|]. split; [|by apply Hlater].
    intros Hall. rewrite Hd. f_equal. apply decision_below; [|done].
    by destruct Hp as (_ & ? & _).
  - intros d Hd. split; [|split].
    + rewrite E in Hd |- *.
      destruct (_intent_cache (load_model W st).2 !! normalized W q)
        as [d0|] eqn:Hc.
      * rewrite (get_intent_cached W q _ m d0 Hm Hc) in Hd |- *.
        cbn [fst snd] in Hd |- *. rewrite Hc in Hd. by injection Hd as ->.
      * rewrite (get_intent_fresh W q _ m Hm Hc) in Hd |- *.
        destruct (semantic_body_cases W (normalized W q) _ m Hm)
          as [(r & n & E2 & Hn) | (n & E2 & Hn)]; rewrite E2 in Hd |- *;
          cbn [fst snd stored logged more_encodes _intent_cache] in Hd |- *.
        -- rewrite lookup_insert_eq in Hd. by injection Hd as ->.
        -- rewrite Hc in Hd. discriminate.
    + by apply Hlater.
    + intros qe scores Hc Hp Hall.
      rewrite (Hstored qe scores Hc Hp) in Hd.
      injection Hd as <-. apply decision_below; [|done].
      by destruct Hp as (_ & ? & _).
Qed.

Lemma cache_idempotence_witness :
  (get_intent Worlds.boundary (lit "oi") initial).1 = Value unknown ∧
  _intent_cache (get_intent Worlds.boundary (lit "oi") initial).2
    !! lit "oi" = Some unknown ∧
  get_intent Worlds.boundary (lit " OI ")
    (get_intent Worlds.boundary (lit "oi") initial).2
  = (Value unknown, (get_intent Worlds.boundary (lit "oi") initial).2) ∧
  encodes (get_intent Worlds.boundary (lit "oi") initial).2 = 9%nat.
Proof.
  destruct (cache_idempotence Worlds.boundary initial (lit "oi") 0%nat)
    as [Hmiss _]; [reflexivity|].
  destruct (Hmiss (lit "oi") [0.1; 0.62; 0.1; 0.1; 0.1; 0.1; 0.1; 0.1]%Q)
    as (Hr & Hd & _ & Hlater).
  - reflexivity.
  - split; [reflexivity|]. split; [reflexivity|].
    intros i intent sc Hi Hs.
    do 8 (destruct i as [|i];
          [injection Hi as <-; injection Hs as <-; eexists; split;
           reflexivity|]).
    discriminate.
  - split; [exact Hr|]. split; [exact Hd|]. split; [|reflexivity].
    apply (Hlater [] (lit " OI ")). reflexivity.
Defined.

(** ** Provisioning: what a failed construction leaves behind *)

(** With [_model = None] (at start-up, or after a construction that
    raised), a call runs the constructor once more. *)
Lemma load_model_unset_constructs (W : World) (st : state) :
  _model st = None →
  constructions (load_model W st).2 = S (constructions st).
Proof.
  intros Hm. destruct (construct W (constructions st)) eqn:Hc.
  - by rewrite (load_model_unset_ok W st Hm Hc).
  - by rewrite (load_model_unset_fail W st Hm Hc).
Qed.

(** C1, on the code.  The constructor raises at the first call of
    [load_model]; the call returns [None] and leaves [_model = None],
    the value it had at start-up.  The second call therefore runs the
    constructor again (two constructions, two pairs of log lines), and
    when the constructor then returns, as in [Worlds.late], the second
    call returns a model: unavailable has become available. *)
Theorem load_model_retries_after_failure :
  (load_model Worlds.offline initial).1 = Value None ∧
  _model (load_model Worlds.offline initial).2 = None ∧
  constructions (load_model Worlds.offline initial).2 = 1%nat ∧
  (load_model Worlds.offline (load_model Worlds.offline initial).2).1
    = Value None ∧
  constructions
    (load_model Worlds.offline (load_model Worlds.offline initial).2).2
    = 2%nat ∧
  log (load_model Worlds.offline (load_model Worlds.offline initial).2).2
    = [LoadingModel; LoadError; LoadingModel; LoadError] ∧
  (load_model Worlds.late initial).1 = Value None ∧
  (load_model Worlds.late (load_model Worlds.late initial).2).1
    = Value (Some 1%nat).
Proof. repeat split; vm_compute; reflexivity. Qed.

(** ** Provisioning under overlapping calls *)

Section Overlap.

Import Threads.
Variable W : World.

Lemma exec_app (s1 s2 : list nat) (c : list pc * state) :
  exec W (s1 ++ s2) c = exec W s2 (exec W s1 c).
Proof. revert c. induction s1 as [|i s1 IH]; intros c; [done|]. apply IH. Qed.

(** One step of the caller at position [length pre]. *)
Lemma step_at (pre post : list pc) (p : pc) (st : state) :
  step W (List.length pre) (pre ++ p :: post, st)
  = (pre ++ (step_thread W p st).1 :: post, (step_thread W p st).2).
Proof.
  unfold step. cbn [fst snd]. rewrite list_lookup_middle by done.
  destruct (step_thread W p st) as [p' st']. cbn [fst snd]. f_equal.
  rewrite <- (Nat.add_0_r (List.length pre)). by rewrite insert_app_r.
Qed.

(** A caller that runs its four steps with no other caller in between
    does what [load_model] does. *)
Lemma caller_alone (pre post : list pc) (st : state) :
  exec W [List.length pre; List.length pre; List.length pre;
          List.length pre]
    (pre ++ AtTest :: post, st)
  = (pre ++ Returned match (load_model W st).1 with
                     | Value r => r
                     | Raised => None
                     end :: post,
     (load_model W st).2).
Proof.
  cbn [exec]. rewrite step_at. cbn [step_thread].
  destruct (_model st) as [m|] eqn:Hm.
  - rewrite (load_model_set W st m Hm). cbn [fst snd].
    rewrite step_at. cbn [step_thread fst snd].
    rewrite !step_at. cbn [step_thread fst snd].
    by rewrite Hm.
  - cbn [fst snd]. rewrite step_at.
    cbn [step_thread]. unfold SentenceTransformer.
    cbn [constructions logged].
    destruct (construct W (constructions st)) eqn:Hc.
    + rewrite (load_model_unset_ok W st Hm Hc). cbn [fst snd].
      rewrite !step_at. cbn [step_thread fst snd].
      unfold write_model, logged. cbn [fst snd _model]. by rewrite Hm.
    + rewrite (load_model_unset_fail W st Hm Hc). cbn [fst snd].
      rewrite !step_at. cbn [step_thread fst snd].
      unfold write_model, logged. cbn [fst snd _model]. by rewrite Hm.
Qed.

Lemma caller_finds_model (pre post : list pc) (st : state) (m : model) :
  _model st = Some m →
  exec W [List.length pre; List.length pre; List.length pre;
          List.length pre]
    (pre ++ AtTest :: post, st)
  = (pre ++ Returned (Some m) :: post, st).
Proof.
  intros Hm. by rewrite caller_alone, (load_model_set W st m Hm).
Qed.

(** Callers that come one after another once a model is stored all
    return it, and the state does not move. *)
Lemma later_callers (pre : list pc) (n : nat) (st : state) (m : model) :
  _model st = Some m →
  exec W (one_after_another (List.length pre) n) (pre ++ replicate n AtTest, st)
  = (pre ++ replicate n (Returned (Some m)), st).
Proof.
  intros Hm. revert pre. induction n as [|n IH]; intros pre; [done|].
  change (one_after_another (List.length pre) (S n))
    with ([List.length pre; List.length pre; List.length pre;
           List.length pre]
          ++ one_after_another (S (List.length pre)) n).
  cbn [replicate].
  rewrite exec_app, (caller_finds_model pre _ st m Hm).
  rewrite (cons_middle (Returned (Some m)) pre), app_assoc.
  replace (S (List.length pre)) with (List.length (pre ++ [Returned (Some m)]))
    by (rewrite length_app; simpl; lia).
  rewrite (IH (pre ++ [Returned (Some m)])).
  by rewrite <- app_assoc.
Qed.

End Overlap.






(** * Further properties of the two functions *)

(** ** The shape of the state a call leaves *)

Lemma more_encodes_add (a b : nat) (st : state) :
  more_encodes a (more_encodes b st) = more_encodes (a + b) st.
Proof. unfold more_encodes. simpl. f_equal. lia. Qed.

(** The loop calls [encode] once per label it reaches: at most once per
    label, and once for every label when it runs to its end. *)
Lemma score_loop_count (W : World) (m : model) (qe : emb W)
      (its : list str) (best : Q * str) (st : state) :
  ∃ n, (score_loop W m qe its best st).2 = more_encodes n st ∧
       (n ≤ List.length its)%nat ∧
       (∀ r, (score_loop W m qe its best st).1 = Value r →
             n = List.length its).
Proof.
  revert best st. induction its as [|intent rest IH]; intros best st.
  - exists 0%nat. split; [by destruct st|]. split; [done|]. done.
  - simpl. unfold bind at 1 3, model_encode at 1 2.
    destruct (encode W m (encodes st) intent) as [e|].
    + unfold bind at 1 2, cos_sim_item at 1 2.
      destruct (cos_sim W qe e) as [sc|].
      * match goal with |- context [score_loop W m qe rest ?b ?s] =>
          destruct (IH b s) as (n & Hn & Hle & Hall); rewrite Hn end.
        exists (S n). split; [|split].
        -- change (mkState (_model st) (_intent_cache st) (constructions st)
                     (S (encodes st)) (log st)) with (more_encodes 1 st).
           rewrite more_encodes_add. f_equal. lia.
        -- simpl. lia.
        -- intros r Hr. simpl. f_equal. by apply (Hall r).
      * exists 1%nat. split; [done|]. split; [simpl; lia | done].
    + exists 1%nat. split; [done|]. split; [simpl; lia | done].
Qed.

(** The [try] block with a model in [_model]: either every provider
    call returned, nine [encode] calls were made and the decision is
    stored, or one raised after at most nine [encode] calls. *)
Lemma semantic_body_shape (W : World) (query : str) (st : state) (m : model) :
  _model st = Some m →
  (∃ d, semantic_body W query st =
          (Value d, stored query d (more_encodes 9 st)))
  ∨ (∃ n, (0 < n ≤ 9)%nat ∧
          semantic_body W query st = (Raised, more_encodes n st)).
Proof.
  intros Hm. rewrite (semantic_body_unfold W query st m Hm).
  destruct (encode W m (encodes st) query) as [qe|].
  - destruct (score_loop_count W m qe intents ((-1)%Q, unknown)
                (more_encodes 1 st)) as (n & Hn & Hle & Hall).
    destruct (score_loop W m qe intents ((-1)%Q, unknown)
                (more_encodes 1 st)) as [[best|] st'];
      cbn [fst snd] in Hn, Hall; subst st'; rewrite more_encodes_add.
    + left. exists (decision best). rewrite (Hall best eq_refl). done.
    + right. exists (n + 1)%nat. split; [|done].
      change (List.length intents) with 8%nat in Hle. lia.
  - right. exists 1%nat. split; [lia | done].
Qed.

(** What a call of [get_intent] does to the state, in its four cases:
    no model (only [load_model] has run); query cached; a provider call
    raised; a decision was stored. *)
Lemma get_intent_shape (W : World) (q : str) (st : state) :
  (keyword_path W st ∧ (get_intent W q st).2 = (load_model W st).2)
  ∨ (∃ m d, semantic_path W st m ∧
            _intent_cache st !! normalized W q = Some d ∧
            get_intent W q st = (Value d, (load_model W st).2))
  ∨ (∃ m n, semantic_path W st m ∧
            _intent_cache st !! normalized W q = None ∧
            (0 < n ≤ 9)%nat ∧
            get_intent W q st =
              (Value unknown,
               logged IntentError (more_encodes n (load_model W st).2)))
  ∨ (∃ m d, semantic_path W st m ∧
            _intent_cache st !! normalized W q = None ∧
            get_intent W q st =
              (Value d,
               stored (normalized W q) d
                 (more_encodes 9 (load_model W st).2))).
Proof.
  destruct (load_model_returns W st) as (r & st1 & E & Hr & Hc & He & _).
  destruct r as [m|].
  - assert (Hs : semantic_path W st m) by (unfold semantic_path; by rewrite E).
    destruct (get_intent_after_load W q st m Hs) as (Hm & Hc1 & _ & ->).
    rewrite E in Hm, Hc1 |- *. cbn [snd] in Hm, Hc1 |- *. right.
    destruct (_intent_cache st !! normalized W q) as [d|] eqn:Hq.
    + left. exists m, d. split; [done|]. split; [done|].
      apply (get_intent_cached W q st1 m d Hm). by rewrite Hc1.
    + right. rewrite (get_intent_fresh W q st1 m Hm) by by rewrite Hc1.
      destruct (semantic_body_shape W (normalized W q) st1 m Hm)
        as [(d & ->) | (n & Hn & ->)].
      * right. by exists m, d.
      * left. by exists m, n.
  - left. assert (Hk : keyword_path W st) by (unfold keyword_path; by rewrite E).
    split; [done|]. by rewrite (get_intent_keyword W q st Hk).
Qed.

(** Only [load_model] touches [_model] and the constructor. *)
Lemma get_intent_loader_frame (W : World) (q : str) (st : state) :
  _model (get_intent W q st).2 = _model (load_model W st).2 ∧
  constructions (get_intent W q st).2 = constructions (load_model W st).2.
Proof.
  destruct (get_intent_shape W q st)
    as [[_ ->] | [(m & d & _ & _ & ->) | [(m & n & _ & _ & _ & ->)
                                         | (m & d & _ & _ & ->)]]];
    done.
Qed.

(** The cache after a call: the cache before it, or that cache with one
    decision added under the normalized query, which was absent. *)
Lemma get_intent_cache_cases (W : World) (q : str) (st : state) :
  _intent_cache (get_intent W q st).2 = _intent_cache st
  ∨ (_intent_cache st !! normalized W q = None ∧
     ∃ d, _intent_cache (get_intent W q st).2
          = <[normalized W q:=d]> (_intent_cache st)).
Proof.
  destruct (load_model_returns W st) as (r & st1 & E & _ & Hc & _).
  destruct (get_intent_shape W q st)
    as [[_ ->] | [(m & d & _ & _ & ->) | [(m & n & _ & _ & _ & ->)
                                         | (m & d & _ & Hq & ->)]]];
    rewrite E; cbn [snd stored logged more_encodes _intent_cache];
    rewrite Hc; [by left..|].
  right. split; [done | by exists d].
Qed.

(** ** The cache only grows *)

(** X1.  The cache is never cleared, and no decision in it is ever
    removed or replaced: after any further calls, from any state, every
    decision that was cached is still cached; and the keys that have
    been added are normal forms of the queries of those calls. *)
Theorem cache_only_grows (W : World) (queries : list str) (st : state) :
  _intent_cache st ⊆ _intent_cache (run W queries st) ∧
  dom (_intent_cache (run W queries st))
    ⊆ dom (_intent_cache st) ∪ list_to_set (normalized W <$> queries).
Proof.
  revert st. induction queries as [|q qs IH]; intros st.
  - simpl. split; [done | apply union_subseteq_l].
  - cbn [run]. destruct (IH (get_intent W q st).2) as [Hsub Hdom].
    assert (Hstep : _intent_cache st ⊆ _intent_cache (get_intent W q st).2 ∧
                    dom (_intent_cache (get_intent W q st).2)
                      ⊆ dom (_intent_cache st) ∪ {[normalized W q]}).
    { destruct (get_intent_cache_cases W q st) as [-> | [Hq [d ->]]].
      - split; [done | apply union_subseteq_l].
      - split; [by apply insert_subseteq|].
        rewrite dom_insert. intros k Hk.
        apply elem_of_union in Hk as [Hk | Hk]; apply elem_of_union;
          [by right | by left]. }
    destruct Hstep as [Hsub1 Hdom1]. split.
    + by etrans.
    + rewrite fmap_cons, list_to_set_cons. intros k Hk.
      apply Hdom, elem_of_union in Hk as [Hk | Hk].
      * apply Hdom1, elem_of_union in Hk as [Hk | Hk]; apply elem_of_union;
          [by left | right; apply elem_of_union; by left].
      * apply elem_of_union. right. apply elem_of_union. by right.
Qed.

(** ** The cost of a call *)

(** X2.  A call makes at most nine [encode] calls (one for the query and
    one per label).  It makes none on the keyword path and none when the
    query is cached, and exactly nine when it caches a new decision. *)
Theorem encode_cost (W : World) (q : str) (st : state) :
  (encodes st ≤ encodes (get_intent W q st).2 ≤ encodes st + 9)%nat ∧
  (keyword_path W st → encodes (get_intent W q st).2 = encodes st) ∧
  (is_Some (_intent_cache st !! normalized W q) →
   encodes (get_intent W q st).2 = encodes st) ∧
  (_intent_cache st !! normalized W q = None →
   is_Some (_intent_cache (get_intent W q st).2 !! normalized W q) →
   encodes (get_intent W q st).2 = (encodes st + 9)%nat).
Proof.
  destruct (load_model_returns W st) as (r & st1 & E & _ & Hc & He & _).
  destruct (get_intent_shape W q st)
    as [[Hk Hst] | [(m & d & Hs & Hq & Hst) | [(m & n & Hs & Hq & Hn & Hst)
                                             | (m & d & Hs & Hq & Hst)]]];
    rewrite Hst, E; cbn [snd stored logged more_encodes encodes _intent_cache];
    rewrite ?He, ?Hc.
  - split; [lia|]. split; [done|]. split; [done|].
    intros Hnone [? Hsome]. congruence.
  - split; [lia|]. split; [done|]. split; [done|].
    intros Hnone [? Hsome]. congruence.
  - split; [lia|]. split; [|split].
    + intros Hk. unfold keyword_path, semantic_path in *. congruence.
    + intros [? ?]. congruence.
    + intros _ [? ?]. congruence.
  - split; [lia|]. split; [|split].
    + intros Hk. unfold keyword_path, semantic_path in *. congruence.
    + intros [? ?]. congruence.
    + intros _ _. lia.
Qed.

(** ** The loader over a run of calls *)

Lemma load_model_loader_ok (W : World) (st : state) :
  loader_ok W st →
  loader_ok W (load_model W st).2 ∧
  (constructions (load_model W st).2 ≤ S (constructions st))%nat.
Proof.
  unfold loader_ok. intros Hok.
  destruct (_model st) as [m|] eqn:Hm.
  - rewrite (load_model_set W st m Hm). cbn [snd]. rewrite Hm.
    split; [done | lia].
  - destruct (construct W (constructions st)) eqn:Hc.
    + rewrite (load_model_unset_ok W st Hm Hc). cbn [snd _model constructions].
      split; [|lia]. by repeat split.
    + rewrite (load_model_unset_fail W st Hm Hc).
      cbn [snd _model constructions]. split; [|lia].
      intros k Hk. destruct (decide (k = constructions st)) as [-> | Hne];
        [done|]. apply Hok. lia.
Qed.

Lemma run_loader_ok (W : World) (queries : list str) (st : state) :
  loader_ok W st →
  loader_ok W (run W queries st) ∧
  (constructions (run W queries st)
   ≤ constructions st + List.length queries)%nat.
Proof.
  revert st. induction queries as [|q qs IH]; intros st Hok.
  - simpl. split; [done | lia].
  - cbn [run]. destruct (load_model_loader_ok W st Hok) as [Hok1 Hle1].
    destruct (get_intent_loader_frame W q st) as [Hm Hc].
    assert (Hok2 : loader_ok W (get_intent W q st).2).
    { unfold loader_ok in *. by rewrite Hm, Hc. }
    destruct (IH _ Hok2) as [Hok3 Hle3]. split; [done|].
    rewrite Hc in Hle3. simpl. lia.
Qed.

(** X3.  After any sequence of calls of [get_intent] made one after
    another from start-up (no two of them overlap), the model in use is
    the one made by the first construction attempt that returned: every
    attempt before it raised and no attempt has been made after it.
    While there is no model, every attempt made so far has raised.
    Each call, from whatever state, makes one attempt when it finds no
    model and none when it finds one, so the calls together have made
    no more attempts than there were calls. *)
Theorem model_is_first_success (W : World) (earlier : list str) :
  match _model (run W earlier initial) with
  | Some m =>
      construct W m = true ∧
      (∀ k, (k < m)%nat → construct W k = false) ∧
      constructions (run W earlier initial) = S m
  | None =>
      ∀ k, (k < constructions (run W earlier initial))%nat →
           construct W k = false
  end
  ∧ (constructions (run W earlier initial) ≤ List.length earlier)%nat
  ∧ (∀ q st,
        constructions (get_intent W q st).2
        = match _model st with
          | Some _ => constructions st
          | None => S (constructions st)
          end).
Proof.
  destruct (run_loader_ok W earlier initial) as [Hok Hle].
  - intros k Hk. simpl in Hk. lia.
  - split; [exact Hok|]. split; [exact Hle|].
    intros q st. destruct (get_intent_loader_frame W q st) as [_ ->].
    destruct (_model st) as [m|] eqn:Hm.
    + by rewrite (load_model_set W st m Hm).
    + by apply load_model_unset_constructs.
Qed.

(** X4.  Nothing is cached before a model has been loaded: after any
    sequence of calls of [get_intent] made one after another from
    start-up (no two of them overlap), if [_model] is [None] the cache
    is empty. *)
Theorem no_model_no_cache (W : World) (earlier : list str) :
  _model (run W earlier initial) = None →
  _intent_cache (run W earlier initial) = ∅.
Proof.
  assert (Hgen : ∀ qs st,
             (_model st = None → _intent_cache st = ∅) →
             _model (run W qs st) = None → _intent_cache (run W qs st) = ∅).
  { induction qs as [|q qs IH]; intros st Hst; [done|].
    cbn [run]. apply IH. intros Hnone.
    destruct (get_intent_loader_frame W q st) as [Hm _].
    rewrite Hnone in Hm. symmetry in Hm.
    destruct (load_model_returns W st) as (r & st1 & E & Hr & Hc & _ & Hset).
    rewrite E in Hm. cbn [snd] in Hm. rewrite Hm in Hr. subst r.
    assert (Hk : keyword_path W st) by (unfold keyword_path; by rewrite E).
    rewrite (get_intent_keyword W q st Hk), E. cbn [snd]. rewrite Hc.
    apply Hst. destruct (_model st) as [m|] eqn:Hmst; [|done].
    specialize (Hset m eq_refl). subst st1. congruence. }
  apply Hgen. done.
Qed.

Lemma no_model_no_cache_witness :
  _model (run Worlds.offline [lit "saldo"; lit "oi"] initial) = None ∧
  _intent_cache (run Worlds.offline [lit "saldo"; lit "oi"] initial) = ∅.
Proof.
  assert (H : _model (run Worlds.offline [lit "saldo"; lit "oi"] initial)
              = None) by reflexivity.
  split; [exact H|].
  exact (no_model_no_cache Worlds.offline [lit "saldo"; lit "oi"] H).
Defined.

(** X5.  While the constructor keeps raising, every call of
    [get_intent] runs it again: [n] calls make [n] construction
    attempts and write [2 n] lines to the log, and leave [_model] and
    the cache as they were. *)
Theorem unavailable_model_is_retried (W : World) (queries : list str)
        (st : state) :
  _model st = None →
  (∀ k, (constructions st ≤ k)%nat → construct W k = false) →
  constructions (run W queries st)
    = (constructions st + List.length queries)%nat ∧
  List.length (log (run W queries st))
    = (List.length (log st) + 2 * List.length queries)%nat ∧
  _model (run W queries st) = None ∧
  _intent_cache (run W queries st) = _intent_cache st.
Proof.
  revert st. induction queries as [|q qs IH]; intros st Hm Hfail.
  - simpl. repeat split; try done; lia.
  - cbn [run].
    assert (Hc : construct W (constructions st) = false) by by apply Hfail.
    assert (Hk : keyword_path W st).
    { unfold keyword_path. by rewrite (load_model_unset_fail W st Hm Hc). }
    rewrite (get_intent_keyword W q st Hk),
      (load_model_unset_fail W st Hm Hc). cbn [snd].
    match goal with |- context [run W qs ?s] =>
      destruct (IH s) as (H1 & H2 & H3 & H4) end.
    + done.
    + cbn [constructions]. intros k Hk'. apply Hfail. lia.
    + rewrite H1, H2, H3, H4. cbn [constructions log _intent_cache].
      rewrite !length_app. simpl. repeat split; try done; lia.
Qed.

Lemma unavailable_model_is_retried_witness :
  constructions
    (run Worlds.offline [lit "saldo"; lit "oi"; lit "saldo"] initial)
  = 3%nat ∧
  List.length
    (log (run Worlds.offline [lit "saldo"; lit "oi"; lit "saldo"] initial))
  = 6%nat.
Proof.
  destruct (unavailable_model_is_retried Worlds.offline
              [lit "saldo"; lit "oi"; lit "saldo"] initial)
    as (H1 & H2 & _ & _).
  - reflexivity.
  - intros k _. reflexivity.
  - split; [exact H1 | exact H2].
Defined.

(** ** Overlapping callers, under every schedule *)

Lemma pending_insert (callers : list Threads.pc) (i : nat)
      (p p' : Threads.pc) :
  callers !! i = Some p →
  (pending (<[i:=p']> callers) + may_construct p
   = pending callers + may_construct p')%nat.
Proof.
  unfold pending. generalize may_construct as w. intros w. revert i.
  induction callers as [|p0 ps IH]; intros i Hi; [done|].
  destruct i as [|i]; simpl in Hi |- *.
  - injection Hi as ->. lia.
  - specialize (IH i Hi). unfold fmap in IH. lia.
Qed.

Lemma pending_replicate (n : nat) : pending (replicate n Threads.AtTest) = n.
Proof.
  unfold pending. induction n as [|n IHn]; [done|]. simpl. f_equal.
  exact IHn.
Qed.

(** One step never increases the number of constructions made plus the
    number of callers that may still construct. *)
Lemma step_pending (W : World) (i : nat) (c : list Threads.pc * state) :
  (constructions (Threads.step W i c).2 + pending (Threads.step W i c).1
   ≤ constructions c.2 + pending c.1)%nat.
Proof.
  destruct c as [ps st]. unfold Threads.step. cbn [fst snd].
  destruct (ps !! i) as [p|] eqn:Hi; [|done].
  destruct (Threads.step_thread W p st) as [p' st'] eqn:Hstep.
  cbn [fst snd]. pose proof (pending_insert ps i p p' Hi) as Hins.
  destruct p as [| |[m|]| |r]; cbn [Threads.step_thread] in Hstep.
  - destruct (_model st); injection Hstep as <- <-; simpl in *; lia.
  - unfold SentenceTransformer in Hstep.
    destruct (construct W (constructions st));
      injection Hstep as <- <-; simpl in *; lia.
  - injection Hstep as <- <-. simpl in *. lia.
  - injection Hstep as <- <-. simpl in *. lia.
  - injection Hstep as <- <-. simpl in *. lia.
  - injection Hstep as <- <-. simpl in *. lia.
Qed.

(** X6.  However the calls of [load_model] overlap, each caller runs
    the constructor at most once: [n] callers started from start-up
    make at most [n] constructions, under every schedule. *)
Theorem overlap_constructions_bounded (W : World) (schedule : list nat)
        (n : nat) :
  (constructions
     (Threads.exec W schedule (replicate n Threads.AtTest, initial)).2
   ≤ n)%nat.
Proof.
  assert (Hgen : ∀ sched c,
             (constructions (Threads.exec W sched c).2
              + pending (Threads.exec W sched c).1
              ≤ constructions c.2 + pending c.1)%nat).
  { induction sched as [|i sched IH]; intros c; [done|].
    cbn [Threads.exec]. etrans; [apply IH | apply step_pending]. }
  specialize (Hgen schedule (replicate n Threads.AtTest, initial)).
  cbn [fst snd] in Hgen. rewrite pending_replicate in Hgen.
  simpl in Hgen. lia.
Qed.

(** With a constructor that always returns, a step keeps every caller
    holding a model. *)
Lemma step_holds_model (W : World) (i : nat) (c : list Threads.pc * state) :
  (∀ k, construct W k = true) →
  Forall (holds_model c.2) c.1 →
  Forall (holds_model (Threads.step W i c).2) (Threads.step W i c).1.
Proof.
  intros Hctor. destruct c as [ps st]. unfold Threads.step. cbn [fst snd].
  intros Hall. destruct (ps !! i) as [p|] eqn:Hi; [|done].
  assert (Hp : holds_model st p).
  { rewrite Forall_lookup in Hall. by apply (Hall i). }
  destruct (Threads.step_thread W p st) as [p' st'] eqn:Hstep.
  cbn [fst snd].
  assert (Hmono : (is_Some (_model st) → is_Some (_model st'))
                  ∧ holds_model st' p').
  { destruct p as [| |[m|]| |r]; cbn [Threads.step_thread] in Hstep.
    - destruct (_model st) as [m|] eqn:Hm; injection Hstep as <- <-.
      + split; [done|]. simpl. rewrite Hm. by eexists.
      + by split.
    - unfold SentenceTransformer in Hstep. rewrite Hctor in Hstep.
      injection Hstep as <- <-. split; [done | by eexists].
    - injection Hstep as <- <-. split; [intros _|]; simpl; by eexists.
    - destruct Hp as [? Hp]. discriminate.
    - injection Hstep as <- <-. split; [done | exact Hp].
    - injection Hstep as <- <-. split; [done | exact Hp]. }
  destruct Hmono as [Hmono Hp']. apply Forall_insert; [|done].
  eapply Forall_impl; [exact Hall|].
  intros [| |r| |r] H; simpl in *; auto.
Qed.

(** X7.  With a constructor that always returns, every caller of
    [load_model] gets a model, however the calls overlap: under every
    schedule, whatever a caller has returned is a model, never
    [None]. *)
Theorem overlap_all_get_model (W : World) (schedule : list nat) (n : nat)
        (st : state) (i : nat) (r : option model) :
  (∀ k, construct W k = true) →
  (Threads.exec W schedule (replicate n Threads.AtTest, st)).1 !! i
    = Some (Threads.Returned r) →
  is_Some r.
Proof.
  intros Hctor Hi.
  assert (Hgen : ∀ sched c,
             Forall (holds_model c.2) c.1 →
             Forall (holds_model (Threads.exec W sched c).2)
                    (Threads.exec W sched c).1).
  { induction sched as [|j sched IH]; intros c Hc; [done|].
    cbn [Threads.exec]. by apply IH, step_holds_model. }
  assert (Hstart : Forall (holds_model st) (replicate n Threads.AtTest)).
  { apply Forall_forall. intros p Hp.
    apply elem_of_replicate in Hp as [-> _]. exact I. }
  pose proof (Hgen schedule (replicate n Threads.AtTest, st) Hstart) as Hend.
  rewrite Forall_lookup in Hend. exact (Hend i _ Hi).
Qed.

Lemma overlap_all_get_model_witness :
  (Threads.exec Worlds.online [0; 1; 0; 1; 0; 0; 1; 1]%nat
     (replicate 2 Threads.AtTest, initial)).1 !! 1%nat
  = Some (Threads.Returned (Some 1%nat)) ∧
  is_Some (Some 1%nat).
Proof.
  assert (Hi : (Threads.exec Worlds.online [0; 1; 0; 1; 0; 0; 1; 1]%nat
                  (replicate 2 Threads.AtTest, initial)).1 !! 1%nat
               = Some (Threads.Returned (Some 1%nat))) by reflexivity.
  split; [exact Hi|].
  apply (overlap_all_get_model Worlds.online [0; 1; 0; 1; 0; 0; 1; 1]%nat
           2 initial 1 (Some 1%nat)); [|exact Hi].
  intros k. apply bool_decide_eq_true. lia.
Defined.

(** * The request layer *)

(** ** Blank strings *)

Lemma lstrip_nil_iff (s : str) :
  lstrip s = [] ↔ ∀ c, c ∈ s → isspace c = true.
Proof.
  induction s as [|c s IH]; simpl.
  - split; [|done]. intros _ c Hc. by apply elem_of_nil in Hc.
  - destruct (isspace c) eqn:Hc.
    + rewrite IH. split.
      * intros H c' Hc'. apply elem_of_cons in Hc' as [-> | Hc']; auto.
      * intros H c' Hc'. apply H. by right.
    + split; [done|]. intros H. specialize (H c). rewrite Hc in H.
      discriminate H. by left.
Qed.

(** What [lstrip] removes is whitespace. *)
Lemma lstrip_split (s : str) :
  ∃ pre, s = pre ++ lstrip s ∧ ∀ c, c ∈ pre → isspace c = true.
Proof.
  induction s as [|c s (pre & Hs & Hpre)]; simpl.
  - exists []. split; [done|]. intros c Hc. by apply elem_of_nil in Hc.
  - destruct (isspace c) eqn:Hc.
    + exists (c :: pre). split; [simpl; by rewrite <- Hs|].
      intros c' Hc'. apply elem_of_cons in Hc' as [-> | Hc']; auto.
    + exists []. split; [done|]. intros c' Hc'. by apply elem_of_nil in Hc'.
Qed.

(** [s.strip()] is empty exactly when [s] holds nothing but
    whitespace. *)
Lemma strip_nil_iff (s : str) :
  strip s = [] ↔ ∀ c, c ∈ s → isspace c = true.
Proof.
  unfold strip, rstrip. split.
  - intros H. assert (Hl : lstrip (rev (lstrip s)) = []).
    { rewrite <- (rev_involutive (lstrip (rev (lstrip s)))). by rewrite H. }
    rewrite lstrip_nil_iff in Hl.
    destruct (lstrip_split s) as (pre & Hs & Hpre).
    intros c Hc. rewrite Hs in Hc. apply elem_of_app in Hc as [Hc | Hc]; auto.
    apply Hl. apply list_elem_of_In, in_rev. rewrite rev_involutive.
    by apply list_elem_of_In.
  - intros H. apply lstrip_nil_iff in H. rewrite H. done.
Qed.

(** ** The query of a request *)

Lemma request_query_blank (payload : option Json.value) :
  blank_request payload ↔ request_query payload = Value [].
Proof.
  unfold blank_request, request_query.
  destruct payload as [v|]; [|by split].
  destruct (Json.truthy v) eqn:Ht.
  - split.
    + intros [Hf | (members & -> & Hq)]; [done|].
      destruct Hq as [-> | (s & -> & Hs)]; [done|].
      f_equal. by apply strip_nil_iff.
    + destruct v as [| | | | |items|members]; try done.
      intros Hq. right. exists members. split; [done|].
      destruct (dict_get members (lit "query")) as [x|]; [|by left].
      right. destruct x as [| | | |s| |]; try done.
      exists s. split; [done|]. apply strip_nil_iff. by injection Hq.
  - split; [done|]. intros _. by left.
Qed.

Lemma request_query_ill_typed (payload : option Json.value) :
  ill_typed_request payload ↔ request_query payload = Raised.
Proof.
  unfold ill_typed_request, request_query.
  destruct payload as [v|].
  - destruct (Json.truthy v) eqn:Ht.
    + split.
      * intros (v' & [= <-] & _ & Hv).
        destruct v as [| | | | |items|members]; try done.
        destruct Hv as (x & -> & Hx).
        destruct x as [| | | |s| |]; try done. by destruct (Hx s).
      * intros Hq. exists v. split; [done|]. split; [done|].
        destruct v as [| | | | |items|members]; try done.
        destruct (dict_get members (lit "query")) as [x|]; [|done].
        exists x. split; [done|]. intros s ->. done.
    + split; [|done]. intros (v' & [= <-] & Ht' & _). congruence.
  - split; [|done]. by intros (v' & Hv & _).
Qed.

(** ** The tables of answers *)

Lemma dict_get_elem {V : Type} (d : list (str * V)) (k : str) (v : V) :
  dict_get d k = Some v → (k, v) ∈ d.
Proof.
  induction d as [|[k' v'] rest IH]; [done|]. simpl.
  destruct (dict_get rest k) as [v''|].
  - intros [= <-]. right. by apply IH.
  - case_bool_decide as Hk; [|done]. intros [= <-]. subst k'. by left.
Qed.

(** Every table has a greeting and an answer for each label, the
    sentinel included; and there is a table for ["pt"]. *)
Lemma responses_complete (lang : str) (table : list (str * str)) (l : str) :
  (lang, table) ∈ responses →
  l ∈ lit "greeting" :: IntentLabel →
  is_Some (dict_get table l).
Proof.
  intros Ht Hl.
  assert (Hall : forallb
            (fun e : str * list (str * str) =>
               forallb (fun k => match dict_get e.2 k with
                                 | Some _ => true
                                 | None => false
                                 end)
                       (lit "greeting" :: IntentLabel))
            responses = true) by (vm_compute; reflexivity).
  rewrite forallb_forall in Hall.
  apply list_elem_of_In in Ht. specialize (Hall _ Ht). cbn [snd] in Hall.
  rewrite forallb_forall in Hall.
  apply list_elem_of_In in Hl. specialize (Hall _ Hl).
  destruct (dict_get table l); [by eexists | discriminate].
Qed.

Lemma responses_pt : is_Some (dict_get responses (lit "pt")).
Proof.
  destruct (dict_get responses (lit "pt")) eqn:E; [by eexists|].
  vm_compute in E. discriminate.
Qed.

Lemma responses_for_elem (lang : str) :
  ∃ lang', (lang', responses_for lang) ∈ responses.
Proof.
  unfold responses_for. destruct (dict_get responses lang) as [t|] eqn:E.
  - exists lang. by apply dict_get_elem.
  - destruct responses_pt as [t Ht]. rewrite Ht. exists (lit "pt").
    by apply dict_get_elem.
Qed.

Lemma responses_for_complete (lang l : str) :
  l ∈ lit "greeting" :: IntentLabel →
  is_Some (dict_get (responses_for lang) l).
Proof.
  intros Hl. destruct (responses_for_elem lang) as [lang' Ht].
  by apply (responses_complete lang').
Qed.

(** ** The function [chat], case by case *)

(** A request with a query to answer, in a language langdetect names or
    fails to name: the intent is resolved, then the reply is put
    together from the table of the language. *)
Lemma chat_valid (W : World) (B : Web) (payload : option Json.value)
      (st : state) (q lang : str) :
  request_query payload = Value q → q ≠ [] →
  language B q = Value lang →
  chat_body W B payload st =
    match get_intent W q st with
    | (Value intent, st') =>
        match dict_get (responses_for lang) (lit "greeting") with
        | Some greeting =>
            match
              match dict_get (responses_for lang) intent with
              | Some text => Some text
              | None => dict_get (responses_for lang) (lit "unknown")
              end
            with
            | Some answer =>
                (Value {| status := 200;
                          response := greeting ++ answer ++ [10; 10]
                                        ++ lit "(" ++ now B ++ lit ")";
                          info := Some (q, lang, intent) |}, st')
            | None => (Raised, st')
            end
        | None => (Raised, st')
        end
    | (Raised, st') => (Raised, st')
    end.
Proof.
  intros Hq Hne Hlang. unfold chat_body. unfold bind at 1, lift at 1.
  rewrite Hq. destruct q as [|c q']; [done|].
  unfold bind at 1, lift at 1. rewrite Hlang.
  unfold bind at 1, dict_item at 1.
  destruct responses_pt as [pt Hpt]. rewrite Hpt.
  assert (Hres : default pt (dict_get responses lang) = responses_for lang).
  { unfold responses_for. rewrite Hpt. by destruct (dict_get responses lang). }
  rewrite Hres. unfold bind at 1.
  destruct (get_intent W (c :: q') st) as [[intent|] st']; [|done].
  unfold bind at 1, dict_item at 1.
  destruct (dict_get (responses_for lang) (lit "greeting")) as [greeting|];
    [|done].
  unfold bind at 1.
  destruct (dict_get (responses_for lang) intent) as [text|]; [done|].
  unfold dict_item.
  by destruct (dict_get (responses_for lang) (lit "unknown")).
Qed.

Lemma chat_blank (W : World) (B : Web) (payload : option Json.value)
      (st : state) :
  request_query payload = Value [] →
  chat_body W B payload st =
    (Value {| status := 400;
              response := lit "Escreve uma pergunta válida!";
              info := None |}, st).
Proof. intros Hq. unfold chat_body, bind, lift. by rewrite Hq. Qed.

Lemma chat_ill_typed (W : World) (B : Web) (payload : option Json.value)
      (st : state) :
  request_query payload = Raised → chat_body W B payload st = (Raised, st).
Proof. intros Hq. unfold chat_body, bind, lift. by rewrite Hq. Qed.

Lemma chat_detect_crash (W : World) (B : Web) (payload : option Json.value)
      (st : state) (q : str) :
  request_query payload = Value q → q ≠ [] → detect B q = DetectCrash →
  chat_body W B payload st = (Raised, st).
Proof.
  intros Hq Hne Hd. unfold chat_body. unfold bind at 1, lift at 1. rewrite Hq.
  destruct q as [|c q']; [done|].
  unfold bind at 1, lift at 1, language. by rewrite Hd.
Qed.

(** The outcome of a request on a state whose cache holds labels. *)
Lemma chat_cases (W : World) (B : Web) (payload : option Json.value)
      (st : state) :
  cache_ok st →
  (request_query payload = Raised ∧ chat_body W B payload st = (Raised, st))
  ∨ (request_query payload = Value [] ∧
     ∃ r, chat_body W B payload st = (Value r, st) ∧ status r = 400%nat)
  ∨ (∃ q, request_query payload = Value q ∧ q ≠ [] ∧
          detect B q = DetectCrash ∧ chat_body W B payload st = (Raised, st))
  ∨ (∃ q lang intent greeting answer,
        request_query payload = Value q ∧ q ≠ [] ∧
        language B q = Value lang ∧
        (get_intent W q st).1 = Value intent ∧ intent ∈ IntentLabel ∧
        dict_get (responses_for lang) (lit "greeting") = Some greeting ∧
        dict_get (responses_for lang) intent = Some answer ∧
        chat_body W B payload st =
          (Value {| status := 200;
                    response := greeting ++ answer ++ [10; 10]
                                  ++ lit "(" ++ now B ++ lit ")";
                    info := Some (q, lang, intent) |},
           (get_intent W q st).2)).
Proof.
  intros Hok. destruct (request_query payload) as [q|] eqn:Hq.
  - destruct q as [|c q'].
    + right. left. split; [done|]. eexists. split; [by apply chat_blank|done].
    + right. right. destruct (language B (c :: q')) as [lang|] eqn:Hl.
      * right. destruct (get_intent_label W (c :: q') st Hok)
          as (intent & Hi & Hin & _).
        destruct (responses_for_complete lang (lit "greeting"))
          as [greeting Hg]; [by left|].
        destruct (responses_for_complete lang intent) as [answer Ha];
          [by right|].
        exists (c :: q'), lang, intent, greeting, answer.
        split; [done|]. split; [done|]. split; [done|]. split; [done|].
        split; [done|]. split; [done|]. split; [done|].
        rewrite (chat_valid W B payload st (c :: q') lang Hq); [|done..].
        destruct (get_intent W (c :: q') st) as [[i|] st']; [|done].
        cbn [fst snd] in Hi |- *. injection Hi as ->.
        by rewrite Hg, Ha.
      * left. exists (c :: q'). unfold language in Hl.
        destruct (detect B (c :: q')) eqn:Hd; try discriminate.
        split; [done|]. split; [done|]. split; [done|].
        by apply (chat_detect_crash W B payload st (c :: q')).
  - left. split; [done|]. by apply chat_ill_typed.
Qed.

(** The function answers 400 to blank requests only. *)
Lemma chat_body_400 (W : World) (B : Web) (payload : option Json.value)
      (st st' : state) (r : reply) :
  chat_body W B payload st = (Value r, st') → status r = 400%nat →
  blank_request payload.
Proof.
  intros Hc Hs. apply request_query_blank.
  destruct (request_query payload) as [q|] eqn:Hq.
  - destruct q as [|c q']; [done|]. exfalso.
    destruct (language B (c :: q')) as [lang|] eqn:Hl.
    + rewrite (chat_valid W B payload st (c :: q') lang Hq) in Hc; [|done..].
      destruct (get_intent W (c :: q') st) as [[intent|] st'']; [|done].
      destruct (dict_get (responses_for lang) (lit "greeting")); [|done].
      destruct (match dict_get (responses_for lang) intent with
                | Some text => Some text
                | None => dict_get (responses_for lang) (lit "unknown")
                end); [|done].
      injection Hc as <- _. simpl in Hs. discriminate.
    + unfold language in Hl.
      destruct (detect B (c :: q')) eqn:Hd; try discriminate.
      rewrite (chat_detect_crash W B payload st (c :: q') Hq) in Hc; done.
  - by rewrite (chat_ill_typed W B payload st Hq) in Hc.
Qed.

(** ** The route [chat]: the limiter, then the function *)

(** A request within the limit gets what the function makes of it. *)
Lemma chat_within (W : World) (B : Web) (payload : option Json.value)
      (st : state) :
  chat W B true payload st =
    match chat_body W B payload st with
    | (Value r, st') => (Value (Replied r), st')
    | (Raised, st') => (Raised, st')
    end.
Proof.
  unfold chat, bind, ret. by destruct (chat_body W B payload st) as [[r|] st'].
Qed.

(** A request over the limit is answered 429 and nothing is run. *)
Lemma chat_over (W : World) (B : Web) (payload : option Json.value)
      (st : state) :
  chat W B false payload st = (Value TooManyRequests, st).
Proof. reflexivity. Qed.

(** X8.  A request over the limit of line 111 is answered 429, whatever
    it carries, and nothing else happens.  Of the requests the limiter
    lets through, [chat] answers 400 exactly to the blank ones (no JSON
    body or one Python takes as false, no ["query"], or a ["query"] of
    whitespace only), and for those it does nothing else: the model is
    not loaded, the intent is not resolved, the state is unchanged.  A
    400 is never the answer to a request over the limit, blank or
    not. *)
Theorem chat_rejects_blank (W : World) (B : Web)
        (payload : option Json.value) (st : state) :
  chat W B false payload st = (Value TooManyRequests, st)
  ∧ (blank_request payload →
     chat W B true payload st =
       (Value (Replied {| status := 400;
                          response := lit "Escreve uma pergunta válida!";
                          info := None |}), st))
  ∧ (∀ within_limit r st',
        chat W B within_limit payload st = (Value (Replied r), st') →
        status r = 400%nat →
        within_limit = true ∧ blank_request payload).
Proof.
  split; [reflexivity|]. split.
  - intros Hb. rewrite chat_within.
    by rewrite (chat_blank W B payload st (proj1 (request_query_blank _) Hb)).
  - intros [|] r st' Hc Hs; [|by rewrite chat_over in Hc].
    split; [done|]. rewrite chat_within in Hc.
    destruct (chat_body W B payload st) as [[r0|] st0] eqn:Hb; [|done].
    injection Hc as -> ->. by apply (chat_body_400 W B payload st st' r).
Qed.

(** X9.  In every state that calls of [get_intent] made one after
    another from start-up reach, [chat] raises in two cases only, both
    of them requests the limiter lets through: the body is not an
    object or its ["query"] is not a string (AttributeError), or
    langdetect raises something other than LangDetectException.  It
    then leaves the state unchanged.  No KeyError can come from the
    tables, and a request over the limit never raises. *)
Theorem chat_raises_only_on (W : World) (B : Web) (earlier : list str)
        (within_limit : bool) (payload : option Json.value) :
  ((chat W B within_limit payload (run W earlier initial)).1 = Raised ↔
   within_limit = true ∧
   (ill_typed_request payload ∨
    ∃ q, request_query payload = Value q ∧ q ≠ [] ∧
         detect B q = DetectCrash))
  ∧ ((chat W B within_limit payload (run W earlier initial)).1 = Raised →
     (chat W B within_limit payload (run W earlier initial)).2
     = run W earlier initial).
Proof.
  destruct within_limit; [|rewrite chat_over; cbn [fst snd]].
  2: { split; [|done]. split; [done|]. by intros [? _]. }
  assert (Hok : cache_ok (run W earlier initial)).
  { apply run_cache_ok. intros k v Hk. simpl in Hk.
    by rewrite lookup_empty in Hk. }
  rewrite chat_within.
  destruct (chat_cases W B payload _ Hok)
    as [[Hq Hc] | [[Hq (r & Hc & _)] | [(q & Hq & Hne & Hd & Hc)
       | (q & lang & intent & g & a & Hq & Hne & Hl & _ & _ & _ & _ & Hc)]]];
    rewrite Hc; cbn [fst snd].
  - split; [|done]. split; [|done]. intros _. split; [done|]. left.
    by apply request_query_ill_typed.
  - split; [|done]. split; [done|].
    intros [_ [Hill | (q & Hq' & Hne & _)]].
    + apply request_query_ill_typed in Hill. congruence.
    + congruence.
  - split; [|done]. split; [|done]. intros _. split; [done|]. right.
    by exists q.
  - split; [|done]. split; [done|].
    intros [_ [Hill | (q' & Hq' & _ & Hd)]].
    + apply request_query_ill_typed in Hill. congruence.
    + rewrite Hq in Hq'. injection Hq' as <-. unfold language in Hl.
      by rewrite Hd in Hl.
Qed.

(** X10.  In every state that calls of [get_intent] made one after
    another from start-up reach, take a request whose ["query"] is a
    string with something other than whitespace in it, and for which
    langdetect names a language or raises LangDetectException.  If the
    limiter lets it through it is answered 200: the text is the
    greeting of the language's table, then that table's answer for the
    intent [get_intent] returns on the stripped query, then the time in
    brackets; the table always has that answer, so the ['unknown']
    fallback of line 311 is never what supplies it.  If it is over the
    limit it is answered 429, [get_intent] is not called and the state
    is unchanged. *)
Theorem chat_answers (W : World) (B : Web) (earlier : list str)
        (members : list (str * Json.value)) (s : str) :
  dict_get members (lit "query") = Some (Json.JStr s) →
  strip s ≠ [] →
  detect B (strip s) ≠ DetectCrash →
  ∃ lang intent greeting answer,
    language B (strip s) = Value lang ∧
    (get_intent W (strip s) (run W earlier initial)).1 = Value intent ∧
    intent ∈ IntentLabel ∧
    dict_get (responses_for lang) (lit "greeting") = Some greeting ∧
    dict_get (responses_for lang) intent = Some answer ∧
    ∀ within_limit,
      chat W B within_limit (Some (Json.JObj members))
        (run W earlier initial) =
        if within_limit
        then (Value (Replied
                       {| status := 200;
                          response := greeting ++ answer ++ [10; 10]
                                        ++ lit "(" ++ now B ++ lit ")";
                          info := Some (strip s, lang, intent) |}),
              (get_intent W (strip s) (run W earlier initial)).2)
        else (Value TooManyRequests, run W earlier initial).
Proof.
  intros Hm Hne Hd.
  assert (Hq : request_query (Some (Json.JObj members)) = Value (strip s)).
  { unfold request_query, Json.truthy.
    destruct members as [|m ms]; [done|].
    rewrite bool_decide_eq_false_2 by done. cbn [negb]. by rewrite Hm. }
  assert (Hok : cache_ok (run W earlier initial)).
  { apply run_cache_ok. intros k v Hk. simpl in Hk.
    by rewrite lookup_empty in Hk. }
  destruct (chat_cases W B (Some (Json.JObj members)) _ Hok)
    as [[Hq' _] | [[Hq' _] | [(q & Hq' & _ & Hd' & _)
       | (q & lang & intent & g & a & Hq' & _ & Hl & Hi & Hin & Hg & Ha
          & Hc)]]];
    rewrite Hq in Hq'; try discriminate.
  - injection Hq' as Hq'. by destruct Hne.
  - injection Hq' as <-. by destruct Hd.
  - injection Hq' as <-. exists lang, intent, g, a.
    split; [done|]. split; [done|]. split; [done|]. split; [done|].
    split; [done|]. intros [|]; [|apply chat_over].
    rewrite chat_within. by rewrite Hc.
Qed.

Lemma chat_answers_witness :
  ∃ lang intent greeting answer,
    language Webs.english (strip (lit "  my card ")) = Value lang ∧
    (get_intent Worlds.offline (strip (lit "  my card "))
       (run Worlds.offline [] initial)).1 = Value intent ∧
    intent ∈ IntentLabel ∧
    dict_get (responses_for lang) (lit "greeting") = Some greeting ∧
    dict_get (responses_for lang) intent = Some answer ∧
    ∀ within_limit,
      chat Worlds.offline Webs.english within_limit
        (Webs.asking (lit "  my card ")) (run Worlds.offline [] initial) =
        if within_limit
        then (Value (Replied
                       {| status := 200;
                          response := greeting ++ answer ++ [10; 10]
                                        ++ lit "(" ++ now Webs.english
                                        ++ lit ")";
                          info := Some (strip (lit "  my card "), lang,
                                        intent) |}),
              (get_intent Worlds.offline (strip (lit "  my card "))
                 (run Worlds.offline [] initial)).2)
        else (Value TooManyRequests, run Worlds.offline [] initial).
Proof.
  apply (chat_answers Worlds.offline Webs.english []
           [(lit "query", Json.JStr (lit "  my card "))] (lit "  my card ")).
  - reflexivity.
  - vm_compute. discriminate.
  - vm_compute. discriminate.
Defined.

(** The reply to [{"query": "  my card "}] when the limiter lets it
    through, langdetect says English and no model can be loaded. *)
Example chat_my_card :
  (chat Worlds.offline Webs.english true (Webs.asking (lit "  my card "))
     initial).1
  = Value (Replied
             {| status := 200;
                response :=
                  lit "Hi Tomás! 👋 Current balance: 1250.75 USDC. "
                  ++ lit "KAST Card active in 160+ countries, no forex fees."
                  ++ [10; 10] ++ lit "(03/11/2026 10:00)";
                info := Some (lit "my card", lit "en", lit "cartão") |}).
Proof. vm_compute. reflexivity. Qed.

(** The same request when it is the caller's eleventh in the minute. *)
Example chat_my_card_over_limit :
  chat Worlds.offline Webs.english false (Webs.asking (lit "  my card "))
    initial
  = (Value TooManyRequests, initial).
Proof. reflexivity. Qed.

(** X11.  A language without a table is answered in Portuguese: when
    langdetect raises LangDetectException or names a language that
    [responses] has no table for, the client gets the status and text,
    and the state the changes, that it would get had langdetect
    answered ["pt"]; this whether the limiter lets the request through
    or not. *)
Theorem chat_falls_back_to_pt (W : World) (B B' : Web)
        (within_limit : bool) (payload : option Json.value) (st : state) :
  now B' = now B →
  (∀ q, detect B' q = Detected (lit "pt")) →
  (∀ q, detect B q = NoLanguage ∨
        ∃ l, detect B q = Detected l ∧ dict_get responses l = None) →
  visible (chat W B within_limit payload st).1
  = visible (chat W B' within_limit payload st).1 ∧
  (chat W B within_limit payload st).2
  = (chat W B' within_limit payload st).2.
Proof.
  intros Hnow Hpt Hother.
  destruct within_limit; [|by rewrite !chat_over].
  rewrite !chat_within.
  destruct (request_query payload) as [q|] eqn:Hq.
  - destruct q as [|c q'].
    + by rewrite !(chat_blank W _ payload st Hq).
    + assert (Hl' : language B' (c :: q') = Value (lit "pt")).
      { unfold language. by rewrite Hpt. }
      assert (∃ lang, language B (c :: q') = Value lang ∧
                      responses_for lang = responses_for (lit "pt"))
        as (lang & Hl & Hres).
      { unfold language.
        destruct (Hother (c :: q')) as [-> | (l & -> & Hnone)].
        - by exists (lit "pt").
        - exists l. split; [done|]. unfold responses_for. rewrite Hnone.
          by destruct responses_pt as [t ->]. }
      rewrite (chat_valid W B payload st (c :: q') lang Hq); [|done..].
      rewrite (chat_valid W B' payload st (c :: q') (lit "pt") Hq);
        [|done..].
      rewrite Hres, Hnow.
      destruct (get_intent W (c :: q') st) as [[intent|] st']; [|done].
      destruct (dict_get (responses_for (lit "pt")) (lit "greeting"));
        [|done].
      by destruct (match dict_get (responses_for (lit "pt")) intent with
                   | Some text => Some text
                   | None => dict_get (responses_for (lit "pt"))
                               (lit "unknown")
                   end).
  - by rewrite !(chat_ill_typed W _ payload st Hq).
Qed.

Lemma chat_falls_back_to_pt_witness :
  visible (chat Worlds.offline Webs.vietnamese true
             (Webs.asking (lit "saldo")) initial).1
  = visible (chat Worlds.offline Webs.portuguese true
               (Webs.asking (lit "saldo")) initial).1
  ∧ visible (chat Worlds.offline Webs.portuguese true
               (Webs.asking (lit "saldo")) initial).1
    = Value (Some (200%nat,
                   lit "Olá Tomás! 👋 Saldo atual: 1250.75 USDC. "
                   ++ lit "O teu saldo é 1250.75 USDC. Queres ver movimentos?"
                   ++ [10; 10] ++ lit "(03/11/2026 10:00)")).
Proof.
  split.
  - apply (chat_falls_back_to_pt Worlds.offline Webs.vietnamese
             Webs.portuguese true (Webs.asking (lit "saldo")) initial).
    + reflexivity.
    + intros q. reflexivity.
    + intros q. right. exists (lit "vi"). split; reflexivity.
  - vm_compute. reflexivity.
Defined.

(** X12.  Requests change the state through [get_intent] alone: after
    any requests served one after the other, whatever the limiter
    decides for each, the state is one that calls of [get_intent], at
    most one per request, produce from start-up.  What holds in every
    state those calls reach holds between requests. *)
Theorem serve_is_a_run (W : World)
        (requests : list (Web * bool * option Json.value)) :
  ∃ queries,
    serve W requests initial = run W queries initial ∧
    (List.length queries ≤ List.length requests)%nat.
Proof.
  assert (Hrun_app : ∀ qs1 qs2 st, run W (qs1 ++ qs2) st
                                   = run W qs2 (run W qs1 st)).
  { induction qs1 as [|q qs1 IH]; intros qs2 st; [done|]. apply IH. }
  assert (Hgen : ∀ reqs done,
             ∃ queries,
               serve W reqs (run W done initial)
               = run W (done ++ queries) initial ∧
               (List.length queries ≤ List.length reqs)%nat).
  { induction reqs as [|[[B within_limit] payload] reqs IH]; intros done.
    - exists []. by rewrite app_nil_r.
    - cbn [serve].
      assert (Hok : cache_ok (run W done initial)).
      { apply run_cache_ok. intros k v Hk. simpl in Hk.
        by rewrite lookup_empty in Hk. }
      assert (Hstep : (chat W B within_limit payload (run W done initial)).2
                      = run W done initial
                      ∨ ∃ q, (chat W B within_limit payload
                                (run W done initial)).2
                             = run W (done ++ [q]) initial).
      { destruct within_limit; [|by left]. rewrite chat_within.
        destruct (chat_cases W B payload _ Hok)
          as [[_ ->] | [[_ (r & -> & _)] | [(q & _ & _ & _ & ->)
             | (q & l & i & g & a & _ & _ & _ & _ & _ & _ & _ & ->)]]];
          [by left.. |].
        right. exists q. by rewrite Hrun_app. }
      destruct Hstep as [-> | [q ->]].
      + destruct (IH done) as (qs & -> & Hle). exists qs. split; [done|].
        simpl. lia.
      + destruct (IH (done ++ [q])) as (qs & -> & Hle).
        exists (q :: qs). rewrite <- app_assoc. split; [done|].
        simpl. lia. }
  destruct (Hgen requests []) as (qs & Hs & Hle). by exists qs.
Qed.

(** ** What the log says about the loader *)

Lemma log_count_app (l : log_line) (a b : list log_line) :
  log_count l (a ++ b) = (log_count l a + log_count l b)%nat.
Proof. unfold log_count. by rewrite List.filter_app, length_app. Qed.

(** Besides what [load_model] writes, a call of [get_intent] writes at
    most the line of its own handler. *)
Lemma get_intent_log (W : World) (q : str) (st : state) :
  log (get_intent W q st).2 = log (load_model W st).2
  ∨ log (get_intent W q st).2 = log (load_model W st).2 ++ [IntentError].
Proof.
  destruct (get_intent_shape W q st)
    as [[_ ->] | [(m & d & _ & _ & ->) | [(m & n & _ & _ & _ & ->)
                                         | (m & d & _ & _ & ->)]]];
    [by left | by left | by right | by left].
Qed.

(** The loader's lines in the log match its counters. *)
Lemma load_model_log (W : World) (st : state) :
  log_count LoadingModel (log st) = constructions st →
  log_count ModelLoaded (log st) = models_loaded st →
  (log_count LoadError (log st) + log_count ModelLoaded (log st)
   = constructions st)%nat →
  log_count LoadingModel (log (load_model W st).2)
    = constructions (load_model W st).2 ∧
  log_count ModelLoaded (log (load_model W st).2)
    = models_loaded (load_model W st).2 ∧
  (log_count LoadError (log (load_model W st).2)
   + log_count ModelLoaded (log (load_model W st).2)
   = constructions (load_model W st).2)%nat.
Proof.
  intros H1 H2 H3. unfold models_loaded in *.
  destruct (_model st) as [m|] eqn:Hm.
  - rewrite (load_model_set W st m Hm). cbn [snd]. by rewrite Hm.
  - destruct (construct W (constructions st)) eqn:Hc.
    + rewrite (load_model_unset_ok W st Hm Hc).
      cbn [snd log _model constructions]. rewrite !log_count_app.
      change (log_count LoadingModel [LoadingModel]) with 1%nat.
      change (log_count LoadingModel [ModelLoaded]) with 0%nat.
      change (log_count ModelLoaded [LoadingModel]) with 0%nat.
      change (log_count ModelLoaded [ModelLoaded]) with 1%nat.
      change (log_count LoadError [LoadingModel]) with 0%nat.
      change (log_count LoadError [ModelLoaded]) with 0%nat.
      repeat split; lia.
    + rewrite (load_model_unset_fail W st Hm Hc).
      cbn [snd log _model constructions]. rewrite !log_count_app.
      change (log_count LoadingModel [LoadingModel]) with 1%nat.
      change (log_count LoadingModel [LoadError]) with 0%nat.
      change (log_count ModelLoaded [LoadingModel]) with 0%nat.
      change (log_count ModelLoaded [LoadError]) with 0%nat.
      change (log_count LoadError [LoadingModel]) with 0%nat.
      change (log_count LoadError [LoadError]) with 1%nat.
      repeat split; lia.
Qed.

(** X13.  The log accounts for the loader: after any sequence of calls
    of [get_intent] made one after another from start-up (no two of
    them overlap), "Carregando modelo..." has been logged once per
    construction attempt, "Modelo carregado com sucesso!" once if a
    model is loaded and never otherwise, and "Erro ao carregar modelo"
    once per attempt that raised. *)
Theorem log_accounts_for_loads (W : World) (earlier : list str) :
  log_count LoadingModel (log (run W earlier initial))
    = constructions (run W earlier initial) ∧
  log_count ModelLoaded (log (run W earlier initial))
    = models_loaded (run W earlier initial) ∧
  (log_count LoadError (log (run W earlier initial))
   + log_count ModelLoaded (log (run W earlier initial))
   = constructions (run W earlier initial))%nat.
Proof.
  assert (Hgen : ∀ qs st,
    log_count LoadingModel (log st) = constructions st →
    log_count ModelLoaded (log st) = models_loaded st →
    (log_count LoadError (log st) + log_count ModelLoaded (log st)
     = constructions st)%nat →
    log_count LoadingModel (log (run W qs st)) = constructions (run W qs st) ∧
    log_count ModelLoaded (log (run W qs st))
      = models_loaded (run W qs st) ∧
    (log_count LoadError (log (run W qs st))
     + log_count ModelLoaded (log (run W qs st))
     = constructions (run W qs st))%nat).
  { induction qs as [|q qs IH]; intros st H1 H2 H3; [done|].
    cbn [run].
    destruct (load_model_log W st H1 H2 H3) as (L1 & L2 & L3).
    destruct (get_intent_loader_frame W q st) as [Hm Hc].
    apply IH; unfold models_loaded in *; rewrite ?Hm, ?Hc;
      destruct (get_intent_log W q st) as [-> | ->];
      rewrite ?log_count_app;
      change (log_count LoadingModel [IntentError]) with 0%nat;
      change (log_count ModelLoaded [IntentError]) with 0%nat;
      change (log_count LoadError [IntentError]) with 0%nat; lia. }
  by apply Hgen.
Qed.
